(** * Request/reply correlation over an event channel: messaging.js

    A shallow embedding of [src/messaging/messaging.js] and the proofs of the
    properties its specification states.

    The module keeps three variables ([seed], [emitterObj], [listenerObj]) and
    exports four functions.  Everything else is reached through collaborators:
    the listener object ([on], [once], [removeAllListeners]), the emitter
    object ([send]), the inbound event handle ([reply]), the timer queue
    ([setTimeout], [clearTimeout]), the clock ([Date.now]), the console, and
    the promise returned to the caller.  The collaborators are modelled as
    part of the state, with the behaviour of Node's EventEmitter, of the
    timer queue and of a promise; the four functions and the two closures
    they create are transcribed statement by statement.

    What is taken from the declarations of the source and from the contracts
    of the collaborators:
    - arguments have their declared types: [listener], [emitter], [callback]
      and [event] are objects, named here by a reference, or are [null] or
      [undefined]; [timeout] is a number or is absent; [action] and
      [messageId] are strings; [event.reply] is a method or is absent;
    - [on], [once] and [removeAllListeners] behave as on an EventEmitter;
      [send], [reply], [console.warn] and the callback return normally, and
      are recorded in a trace of the calls that leave the module; a [send]
      that throws is followed apart, where it bears on what the caller of a
      one-way request is told;
    - a timer that has been cleared does not fire, a timer fires at most
      once, and when it fires is left open: every order of calls, timer
      expiries and incoming events is an input sequence of the model;
    - what the callback and the caller do in turn is further input. *)

From Stdlib Require Import ZArith QArith String Ascii List Lia.
From Stdlib Require Import DecimalString DecimalZ.
From stdpp Require Import base option list gmap strings.

Open Scope string_scope.
Open Scope Z_scope.

(** ** Values *)

(** A JavaScript number.  [-0] is not distinguished from [0]: the source
    applies [=== 0], [!] and [< 0] to a number, and the three agree on
    both zeros. *)
Inductive number : Type :=
| NaN
| Infinity (negative : bool)
| Finite (q : Q).

(** Payloads ([data], [reply], the inbound message) are opaque to the module
    except for property reads. *)
#[warnings="-register-all"]
Inductive jsval : Type :=
| VUndefined
| VNull
| VBool (b : bool)
| VNum (n : number)
| VStr (s : string)
| VObj (props : list (string * jsval)).

(** What a [throw] carries: [new Error(message)], or the TypeError of the
    runtime when a property of [null] or [undefined] is read. *)
Inductive exn : Type :=
| Error (message : string)
| TypeError.

Definition AlreadyInitialized : exn := Error "Already initialized".
Definition InvalidParameters : exn := Error "Invalid parameters".

(** The inbound event handle: [reply] is a method (a function reference) or
    is absent. *)
Record event : Type := Event {
  ev_sender : nat;
  ev_reply : option nat
}.

(** ** Truthiness and comparisons on the [timeout] parameter

    The parameter is declared [{number?}]: [None] stands for an absent
    argument ([undefined] or [null]). *)

Definition number_truthy (n : number) : bool :=
  match n with
  | NaN => false
  | Infinity _ => true
  | Finite q => negb (Qeq_bool q 0)
  end.

(** [!!timeout] *)
Definition timeout_truthy (t : option number) : bool :=
  match t with
  | None => false
  | Some n => number_truthy n
  end.

(** [timeout === 0] *)
Definition strict_eq_zero (t : option number) : bool :=
  match t with
  | Some (Finite q) => Qeq_bool q 0
  | _ => false
  end.

(** [timeout < 0] *)
Definition lt_zero (t : option number) : bool :=
  match t with
  | Some (Finite q) => match (q ?= 0)%Q with Lt => true | _ => false end
  | Some (Infinity negative) => negative
  | Some NaN => false
  | None => false
  end.

(** [timeout || d] *)
Definition timeout_or (t : option number) (d : number) : option number :=
  if timeout_truthy t then t else Some d.

(** [obj.prop] on a payload: reading a property of [null] or [undefined]
    throws, a primitive has none of the properties read here. *)
Fixpoint assoc (k : string) (props : list (string * jsval)) : jsval :=
  match props with
  | [] => VUndefined
  | (k', v) :: rest => if String.eqb k k' then v else assoc k rest
  end.

Definition get_prop (v : jsval) (k : string) : exn + jsval :=
  match v with
  | VUndefined | VNull => inl TypeError
  | VObj props => inr (assoc k props)
  | _ => inr VUndefined
  end.

(** ** Identifiers *)

(** [`${n}`] for an integer-valued number below 1e21. *)
Definition decimal (n : Z) : string := NilZero.string_of_int (Z.to_int n).

(** [seed++] leaves this value in [seed].  Numbers are doubles: the integers
    up to [2^53] are exact, and [2^53 + 1] rounds back to [2^53].  [seed]
    starts at 1 and is only ever incremented, so it never exceeds [2^53]. *)
Definition seed_limit : Z := 2 ^ 53.

Definition incr (s : Z) : Z := if s <? seed_limit then s + 1 else s.

(** [`msg-${seed++}-${Date.now()}`], from the value of [seed] before the
    increment and the value [Date.now()] returned. *)
Definition message_id (s now : Z) : string :=
  "msg-" ++ decimal s ++ "-" ++ decimal now.

(** The outbound message [{id, action, data}]. *)
Definition message (id action : string) (data : jsval) : jsval :=
  VObj [("id", VStr id); ("action", VStr action); ("data", data)].

(** ** The state: module variables and collaborators *)

(** The two functions subscribed on the listener object. *)
Inductive handler : Type :=
| OnRequest (callback : nat)        (* the arrow function of initMessaging *)
| OnReply (p : nat).                (* the arrow function of request [p] *)

Record subscription : Type := Subscription {
  s_channel : string;
  s_once : bool;
  s_handler : handler
}.

(** How a promise is settled: by [resolve], by [reject], or by an exception
    leaving its executor. *)
Inductive settlement : Type :=
| Resolved (v : jsval)
| Rejected (reason : jsval)
| Thrown (e : exn).

(** What one call of sendMessageRequest creates: the constants and the
    [timer] variable its closures capture, and the promise it returns.
    [c_settled] lists every settlement of the promise in order; the promise
    takes the first and ignores the rest. *)
Record closure : Type := Closure {
  c_id : string;
  c_action : string;
  c_oneWay : bool;
  c_infinite : bool;
  c_timer : option nat;
  c_settled : list settlement
}.

(** The arguments of console.warn: [TimeOut id action] stands for the line
    [`[${id}] '${action}' Time out`] and [TimedOutReply id action r] for
    [`[${id}] '${action}' Timed out reply [${r}]`]. *)
Inductive diagnostic : Type :=
| TimeOut (id action : string)
| TimedOutReply (id action : string) (reply_id : jsval).

(** Calls that leave the module, in the order they are made. *)
Inductive effect : Type :=
| EOn (target : nat) (channel : string)
| EOnce (target : nat) (channel : string)
| ERemoveAllListeners (target : nat) (channel : string)
| ESend (target : nat) (channel : string) (payload : jsval)
| EEventReply (ev : event) (messageId : string) (data : jsval)
| ESetTimeout (h : nat) (delay : option number)
| EClearTimeout (h : nat)
| EWarn (d : diagnostic)
| ECallback (callback : nat) (action data : jsval) (ev : option event)
    (id : jsval).

Record state : Type := State {
  seed : Z;
  emitterObj : option nat;
  listenerObj : option nat;
  closures : list closure;
  listeners : list subscription;      (* of the listener object, oldest first *)
  timers : gmap nat nat;              (* armed timers: handle to request *)
  next_timer : nat;
  trace : list effect
}.

(** The state the module is loaded with. *)
Definition initial_state : state :=
  {| seed := 1; emitterObj := None; listenerObj := None;
     closures := []; listeners := []; timers := ∅; next_timer := 1;
     trace := [] |}.

(** ** Computations: a state and exception monad *)

Inductive result (A : Type) : Type :=
| Ok (a : A)
| Raise (e : exn).
Arguments Ok {A} a.
Arguments Raise {A} e.

Definition js (A : Type) : Type := state -> result A * state.

Definition ret {A} (a : A) : js A := fun st => (Ok a, st).

Definition bind {A B} (m : js A) (k : A -> js B) : js B :=
  fun st =>
    match m st with
    | (Ok a, st') => k a st'
    | (Raise e, st') => (Raise e, st')
    end.

Definition throw {A} (e : exn) : js A := fun st => (Raise e, st).

Definition gets {A} (f : state -> A) : js A := fun st => (Ok (f st), st).

Definition modify (f : state -> state) : js unit := fun st => (Ok tt, f st).

Notation "'do' x <- m ; k" := (bind m (fun x => k))
  (at level 10, x name, m at level 100, k at level 200).
Notation "'exec' m ; k" := (bind m (fun _ => k))
  (at level 10, m at level 100, k at level 200).

(** Field updates. *)
Definition set_seed (v : Z) (st : state) : state :=
  {| seed := v; emitterObj := emitterObj st; listenerObj := listenerObj st;
     closures := closures st; listeners := listeners st; timers := timers st;
     next_timer := next_timer st; trace := trace st |}.

Definition set_emitterObj (v : option nat) (st : state) : state :=
  {| seed := seed st; emitterObj := v; listenerObj := listenerObj st;
     closures := closures st; listeners := listeners st; timers := timers st;
     next_timer := next_timer st; trace := trace st |}.

Definition set_listenerObj (v : option nat) (st : state) : state :=
  {| seed := seed st; emitterObj := emitterObj st; listenerObj := v;
     closures := closures st; listeners := listeners st; timers := timers st;
     next_timer := next_timer st; trace := trace st |}.

Definition set_closures (v : list closure) (st : state) : state :=
  {| seed := seed st; emitterObj := emitterObj st;
     listenerObj := listenerObj st; closures := v; listeners := listeners st;
     timers := timers st; next_timer := next_timer st; trace := trace st |}.

Definition set_listeners (v : list subscription) (st : state) : state :=
  {| seed := seed st; emitterObj := emitterObj st;
     listenerObj := listenerObj st; closures := closures st; listeners := v;
     timers := timers st; next_timer := next_timer st; trace := trace st |}.

Definition set_timers (v : gmap nat nat) (n : nat) (st : state) : state :=
  {| seed := seed st; emitterObj := emitterObj st;
     listenerObj := listenerObj st; closures := closures st;
     listeners := listeners st; timers := v; next_timer := n;
     trace := trace st |}.

Definition log (e : effect) (st : state) : state :=
  {| seed := seed st; emitterObj := emitterObj st;
     listenerObj := listenerObj st; closures := closures st;
     listeners := listeners st; timers := timers st;
     next_timer := next_timer st; trace := (trace st ++ [e])%list |}.

Definition with_timer (v : option nat) (c : closure) : closure :=
  {| c_id := c_id c; c_action := c_action c; c_oneWay := c_oneWay c;
     c_infinite := c_infinite c; c_timer := v; c_settled := c_settled c |}.

Definition with_settlement (s : settlement) (c : closure) : closure :=
  {| c_id := c_id c; c_action := c_action c; c_oneWay := c_oneWay c;
     c_infinite := c_infinite c; c_timer := c_timer c;
     c_settled := (c_settled c ++ [s])%list |}.

(** The truthiness of an object reference or [null]. *)
Definition truthy {A} (o : option A) : bool :=
  match o with
  | Some _ => true
  | None => false
  end.

#[global] Instance handler_eq_dec : EqDecision handler.
Proof. solve_decision. Defined.

#[global] Instance subscription_eq_dec : EqDecision subscription.
Proof. solve_decision. Defined.

(** ** The collaborators *)

(** [listenerObj.on(channel, f)] and [listenerObj.once(channel, f)]: the
    function is appended to the listeners of the object.  A method call on
    [null] throws. *)
Definition listener_subscribe (s : subscription) : js unit :=
  do lo <- gets listenerObj;
  match lo with
  | None => throw TypeError
  | Some l =>
      exec modify (log (if s_once s then EOnce l (s_channel s)
                        else EOn l (s_channel s)));
      modify (fun st => set_listeners (listeners st ++ [s])%list st)
  end.

Definition listener_on (channel : string) (f : handler) : js unit :=
  listener_subscribe (Subscription channel false f).

Definition listener_once (channel : string) (f : handler) : js unit :=
  listener_subscribe (Subscription channel true f).

(** [listenerObj.removeAllListeners(channel)] *)
Definition listener_removeAllListeners (channel : string) : js unit :=
  do lo <- gets listenerObj;
  match lo with
  | None => throw TypeError
  | Some l =>
      exec modify (log (ERemoveAllListeners l channel));
      modify (fun st =>
        set_listeners (filter (fun s => s_channel s <> channel) (listeners st))
          st)
  end.

(** [emitterObj.send(channel, payload)]: handed to the transport, nothing
    comes back. *)
Definition emitter_send (channel : string) (payload : jsval) : js unit :=
  do eo <- gets emitterObj;
  match eo with
  | None => throw TypeError
  | Some e => modify (log (ESend e channel payload))
  end.

(** [setTimeout(f, delay)], where [f] is the timer function of request [p]:
    a fresh handle is armed and returned.  Handles are truthy. *)
Definition setTimeout (p : nat) (delay : option number) : js nat :=
  do h <- gets next_timer;
  exec modify (log (ESetTimeout h delay));
  exec modify (fun st => set_timers (<[h := p]> (timers st)) (S h) st);
  ret h.

(** [clearTimeout(h)]: the timer, if still armed, will not fire. *)
Definition clearTimeout (h : nat) : js unit :=
  exec modify (log (EClearTimeout h));
  modify (fun st => set_timers (delete h (timers st)) (next_timer st) st).

Definition console_warn (d : diagnostic) : js unit := modify (log (EWarn d)).

(** [resolve(v)], [reject(v)] and an exception leaving the executor, on the
    promise of request [p]. *)
Definition settle (p : nat) (s : settlement) : js unit :=
  modify (fun st => set_closures (alter (with_settlement s) p (closures st)) st).

(** [timer = v] in the closure of request [p]. *)
Definition assign_timer (p : nat) (v : option nat) : js unit :=
  modify (fun st => set_closures (alter (with_timer v) p (closures st)) st).

(** [new Promise(executor)]: the executor runs at once; an exception leaving
    it rejects the promise, and the promise is returned either way.  The
    promise and the variables of the call live in a new closure record, whose
    index names the request. *)
Definition new_Promise (c : closure) (executor : nat -> js unit) : js nat :=
  do p <- gets (fun st => length (closures st));
  exec modify (fun st => set_closures (closures st ++ [c])%list st);
  fun st =>
    match executor p st with
    | (Ok _, st') => (Ok p, st')
    | (Raise e, st') => (Ok p, snd (settle p (Thrown e) st'))
    end.

(** ** The module *)

(** [initMessaging(listener, emitter, callback)] *)
Definition initMessaging (listener emitter callback : option nat) : js unit :=
  do eo <- gets emitterObj;
  if truthy eo then throw AlreadyInitialized
  else
    let emitter := if truthy emitter then emitter else listener in
    match listener, callback with
    | Some _, Some cb =>                  (* !listener || !callback is false *)
        exec modify (set_listenerObj listener);
        exec modify (set_emitterObj emitter);
        listener_on "message-request" (OnRequest cb)
    | _, _ => throw InvalidParameters
    end.

(** [event && event.reply] *)
Definition event_reply (ev : option event) : option nat :=
  match ev with
  | Some e => ev_reply e
  | None => None
  end.

(** [sendMessageReply(messageId, data, event)]: [event.reply(messageId,
    data)] when [event && event.reply], [emitterObj.send(messageId, data)]
    otherwise. *)
Definition sendMessageReply (messageId : string) (data : jsval)
    (ev : option event) : js unit :=
  match ev, event_reply ev with
  | Some e, Some _ => modify (log (EEventReply e messageId data))
  | _, _ => emitter_send messageId data
  end.

(** [seed++] *)
Definition post_increment_seed : js Z :=
  do s <- gets seed;
  exec modify (set_seed (incr s));
  ret s.

(** The executor of the promise sendMessageRequest returns, with the
    variables it captures; [p] names the promise and the [timer] variable. *)
Definition executor (id action : string) (data : jsval)
    (oneWay infinite : bool) (timeout : option number) (p : nat) : js unit :=
  exec (if negb oneWay && negb infinite
        then do h <- setTimeout p timeout; assign_timer p (Some h)
        else ret tt);
  exec (if negb oneWay then listener_once id (OnReply p) else ret tt);
  emitter_send "message-request" (message id action data).

(** [sendMessageRequest(action, data, timeout)]; [now] is what [Date.now()]
    returns during the call.  The result names the promise returned. *)
Definition sendMessageRequest (action : string) (data : jsval)
    (timeout : option number) (now : Z) : js nat :=
  let oneWay := strict_eq_zero timeout in
  let infinite := timeout_truthy timeout && lt_zero timeout in
  let timeout :=
    if negb oneWay && negb infinite && negb (timeout_truthy timeout)
    then timeout_or timeout (Finite 2000)
    else timeout in
  do s <- post_increment_seed;
  let id := message_id s now in
  new_Promise
    {| c_id := id; c_action := action; c_oneWay := oneWay;
       c_infinite := infinite; c_timer := None; c_settled := [] |}
    (executor id action data oneWay infinite timeout).

(** [sendMessageOneWay(action, data)] *)
Definition sendMessageOneWay (action : string) (data : jsval) (now : Z)
    : js nat :=
  sendMessageRequest action data (Some (Finite 0)) now.

(** ** A send that throws

    [emitterObj.send] is a method of the object given to initMessaging, and
    the source calls it last in the executor of the promise.  The functions
    above take it to return; these are the same statements with a [send]
    that, once called, throws [x] when [thrown] is [Some x], and returns
    when it is [None]. *)
Definition emitter_send_or (thrown : option exn) (channel : string)
    (payload : jsval) : js unit :=
  do eo <- gets emitterObj;
  match eo with
  | None => throw TypeError
  | Some e =>
      exec modify (log (ESend e channel payload));
      match thrown with
      | Some x => throw x
      | None => ret tt
      end
  end.

Definition executor_or (thrown : option exn) (id action : string)
    (data : jsval) (oneWay infinite : bool) (timeout : option number)
    (p : nat) : js unit :=
  exec (if negb oneWay && negb infinite
        then do h <- setTimeout p timeout; assign_timer p (Some h)
        else ret tt);
  exec (if negb oneWay then listener_once id (OnReply p) else ret tt);
  emitter_send_or thrown "message-request" (message id action data).

Definition sendMessageRequest_or (thrown : option exn) (action : string)
    (data : jsval) (timeout : option number) (now : Z) : js nat :=
  let oneWay := strict_eq_zero timeout in
  let infinite := timeout_truthy timeout && lt_zero timeout in
  let timeout :=
    if negb oneWay && negb infinite && negb (timeout_truthy timeout)
    then timeout_or timeout (Finite 2000)
    else timeout in
  do s <- post_increment_seed;
  let id := message_id s now in
  new_Promise
    {| c_id := id; c_action := action; c_oneWay := oneWay;
       c_infinite := infinite; c_timer := None; c_settled := [] |}
    (executor_or thrown id action data oneWay infinite timeout).

(** The function given to setTimeout by request [p], whose closure holds
    [c]. *)
Definition on_timeout (p : nat) (c : closure) : js unit :=
  exec assign_timer p None;
  exec listener_removeAllListeners (c_id c);
  exec console_warn (TimeOut (c_id c) (c_action c));
  settle p (Rejected (VStr "Timed out")).

(** The function given to listenerObj.once by request [p], whose closure
    holds [c] when the function is called. *)
Definition on_reply (p : nat) (c : closure) (reply : jsval) : js unit :=
  if negb (c_infinite c) && negb (truthy (c_timer c)) then
    match get_prop reply "id" with
    | inl e => throw e
    | inr reply_id =>
        console_warn (TimedOutReply (c_id c) (c_action c) reply_id)
    end
  else
    exec (match c_timer c with
          | Some h => clearTimeout h
          | None => ret tt
          end);
    settle p (Resolved reply).

(** The function given to listenerObj.on by initMessaging. *)
Definition on_request (callback : nat) (ev : option event) (msg : jsval)
    : js unit :=
  match get_prop msg "action", get_prop msg "data", get_prop msg "id" with
  | inr action, inr data, inr id =>
      modify (log (ECallback callback action data ev id))
  | _, _, _ => throw TypeError
  end.

(** ** The event loop *)

Definition call_handler (f : handler) (ev : option event) (payload : jsval)
    : js unit :=
  match f with
  | OnRequest callback => on_request callback ev payload
  | OnReply p =>
      do cs <- gets closures;
      match cs !! p with
      | Some c => on_reply p c payload
      | None => ret tt
      end
  end.

(** An event on a channel of the listener object reaches the functions
    subscribed at that moment, oldest first; one subscribed with [once] is
    removed before it is called; an exception stops the round.  A function
    is a fresh object each time the arrow expression creating it is
    evaluated, so a subscription is identified by its function. *)
Fixpoint dispatch (subs : list subscription) (ev : option event)
    (payload : jsval) : js unit :=
  match subs with
  | [] => ret tt
  | s :: rest =>
      exec (if s_once s
            then modify (fun st =>
                   set_listeners (filter (fun s' => s' <> s) (listeners st)) st)
            else ret tt);
      exec call_handler (s_handler s) ev payload;
      dispatch rest ev payload
  end.

Definition emit (channel : string) (ev : option event) (payload : jsval)
    : js unit :=
  do ls <- gets listeners;
  dispatch (filter (fun s => s_channel s = channel) ls) ev payload.

(** An armed timer fires: it leaves the queue and its function runs. *)
Definition fire (h : nat) : js unit :=
  do ts <- gets timers;
  do cs <- gets closures;
  match ts !! h with
  | Some p =>
      exec modify (fun st =>
             set_timers (delete h (timers st)) (next_timer st) st);
      match cs !! p with
      | Some c => on_timeout p c
      | None => ret tt
      end
  | None => ret tt
  end.

(** What can happen to the module: a call of an exported function, an armed
    timer firing, an event arriving on a channel of the listener object. *)
Inductive input : Type :=
| Call_initMessaging (listener emitter callback : option nat)
| Call_sendMessageOneWay (action : string) (data : jsval) (now : Z)
| Call_sendMessageReply (messageId : string) (data : jsval)
    (ev : option event)
| Call_sendMessageRequest (action : string) (data : jsval)
    (timeout : option number) (now : Z)
| Timer (h : nat)
| Incoming (channel : string) (ev : option event) (payload : jsval).

(** The state after an input; an exception that nothing catches leaves the
    state as it is at the throw. *)
Definition step (i : input) (st : state) : state :=
  match i with
  | Call_initMessaging l e cb => snd (initMessaging l e cb st)
  | Call_sendMessageOneWay a d now => snd (sendMessageOneWay a d now st)
  | Call_sendMessageReply m d ev => snd (sendMessageReply m d ev st)
  | Call_sendMessageRequest a d t now => snd (sendMessageRequest a d t now st)
  | Timer h => snd (fire h st)
  | Incoming ch ev payload => snd (emit ch ev payload st)
  end.

Definition run (inputs : list input) (st : state) : state :=
  fold_left (fun st i => step i st) inputs st.

(** ** Properties of states *)

(** The test initMessaging makes first: [if (emitterObj)]. *)
Definition initialized (st : state) : Prop := truthy (emitterObj st) = true.

(** The module variables are the same in both states. *)
Definition same_objects (st st' : state) : Prop :=
  emitterObj st' = emitterObj st /\ listenerObj st' = listenerObj st.

(** What may happen to the closure of a request: its constants stay, its
    promise may be settled further. *)
Definition evolves (c c' : closure) : Prop :=
  c_id c' = c_id c /\ c_action c' = c_action c /\
  c_oneWay c' = c_oneWay c /\ c_infinite c' = c_infinite c /\
  c_settled c `prefix_of` c_settled c'.

(** Every request of the first state is a request of the second, under the
    same name. *)
Definition extends (st st' : state) : Prop :=
  forall p c, closures st !! p = Some c ->
    exists c', closures st' !! p = Some c' /\ evolves c c'.

(** *** Initialization *)

(** The call returned normally. *)
Definition is_ok {A} (r : result A) : bool :=
  match r with
  | Ok _ => true
  | Raise _ => false
  end.

(** Some call of initMessaging among [inputs], run from [st], returned
    normally. *)
Fixpoint initialized_by (inputs : list input) (st : state) : bool :=
  match inputs with
  | [] => false
  | i :: rest =>
      match i with
      | Call_initMessaging l e cb => is_ok (fst (initMessaging l e cb st))
      | _ => false
      end || initialized_by rest (step i st)
  end.

(** *** Requests *)

(** The three readings of [timeout], as sendMessageRequest computes them:
    [oneWay], the truthiness of [infinite], and [timeout] after the default
    has been applied. *)
Definition oneWay_of (t : option number) : bool := strict_eq_zero t.

Definition infinite_of (t : option number) : bool :=
  timeout_truthy t && lt_zero t.

Definition delay_of (t : option number) : option number :=
  if negb (oneWay_of t) && negb (infinite_of t) && negb (timeout_truthy t)
  then timeout_or t (Finite 2000)
  else t.

(** Request [p], whose closure holds [c], still waits for its reply: nothing
    has settled its promise, and its [timer] variable holds the handle of
    its armed timer, or [null] when it waits forever. *)
Definition awaiting (st : state) (p : nat) (c : closure) : Prop :=
  c_settled c = [] /\ c_oneWay c = false /\
  if c_infinite c then c_timer c = None
  else exists h, c_timer c = Some h /\ timers st !! h = Some p.

(** How a promise can have been settled: not at all, by one [resolve], or by
    the one [reject] of the timer function. *)
Definition outcome_ok (c : closure) : Prop :=
  c_settled c = [] \/
  (exists v, c_settled c = [Resolved v] /\ c_oneWay c = false) \/
  (c_settled c = [Rejected (VStr "Timed out")] /\
   c_oneWay c = false /\ c_infinite c = false).

(** What holds of the module once it is initialized, whatever its inputs:
    both objects are set; an armed timer belongs to a request with a finite
    wait that nothing has settled, and is the one its [timer] variable holds;
    a function subscribed by a request is subscribed once, with [once], on
    the channel named after the identifier, and its request still waits;
    every promise has one of the three outcomes; the function of
    initMessaging listens on the channel of requests. *)
Record consistent (st : state) : Prop := Consistent {
  cons_objects :
    exists l e, listenerObj st = Some l /\ emitterObj st = Some e;
  cons_timers :
    forall h p, timers st !! h = Some p ->
      (h < next_timer st)%nat /\
      exists c, closures st !! p = Some c /\ c_timer c = Some h /\
                c_settled c = [] /\ c_oneWay c = false /\
                c_infinite c = false;
  cons_replies :
    forall s p, s ∈ listeners st -> s_handler s = OnReply p ->
      exists c, closures st !! p = Some c /\
                s = Subscription (c_id c) true (OnReply p) /\
                awaiting st p c;
  cons_nodup : NoDup (s_handler <$> listeners st);
  cons_outcomes :
    forall p c, closures st !! p = Some c -> outcome_ok c;
  cons_requests :
    forall s cb, s ∈ listeners st -> s_handler s = OnRequest cb ->
      s_channel s = "message-request"
}.

(** The module after a first call of initMessaging that was given a
    listener and a callback, and the inputs that followed. *)
Definition started (l : nat) (e : option nat) (cb : nat)
    (inputs : list input) : state :=
  run (Call_initMessaging (Some l) e (Some cb) :: inputs) initial_state.

(** One turn of a round: the subscription is dropped if it was made with
    [once], then its function is called. *)
Definition unsubscribed (s : subscription) (st : state) : state :=
  if s_once s
  then set_listeners (filter (fun s' => s' <> s) (listeners st)) st
  else st.

(** *** Outcomes *)

Definition is_resolved (s : settlement) : bool :=
  match s with
  | Resolved _ => true
  | _ => false
  end.

(** The promise was resolved with a reply. *)
Definition fulfilled (c : closure) : bool := existsb is_resolved (c_settled c).

(** The promise was rejected, by [reject] or by its executor. *)
Definition failed (c : closure) : bool :=
  existsb (fun s => negb (is_resolved s)) (c_settled c).

(** The line the timer function gives to console.warn:
    [`[${message.id}] '${action}' Time out`]. *)
Definition time_out_line (id action : string) : string :=
  "[" ++ id ++ "] '" ++ action ++ "' Time out".

(** [x] occurs in [s]. *)
Fixpoint contains (x s : string) : bool :=
  String.prefix x s ||
  match s with
  | EmptyString => false
  | String _ s' => contains x s'
  end.

(** [x] occurs in a string of the value. *)
Fixpoint carries (x : string) (v : jsval) : bool :=
  match v with
  | VStr s => contains x s
  | VObj props =>
      (fix any (ps : list (string * jsval)) : bool :=
         match ps with
         | [] => false
         | (_, w) :: rest => carries x w || any rest
         end) props
  | _ => false
  end.

(** *** Identifiers *)

(** No character of the string is a dash. *)
Fixpoint no_dash (s : string) : bool :=
  match s with
  | EmptyString => true
  | String a s' => negb (Ascii.eqb a "-") && no_dash s'
  end.

(** The identifiers of the requests made so far, oldest first. *)
Definition identifiers (st : state) : list string := c_id <$> closures st.

(** The counter and the identifiers are those of the first state. *)
Definition same_identifiers (st st' : state) : Prop :=
  seed st' = seed st /\ identifiers st' = identifiers st.

(** What an input adds to the identifiers: a call of sendMessageRequest or
    sendMessageOneWay generates one, from the counter and the clock. *)
Definition generated (i : input) (st : state) : list string :=
  match i with
  | Call_sendMessageOneWay _ _ now
  | Call_sendMessageRequest _ _ _ now => [message_id (seed st) now]
  | _ => []
  end.

(** What an input makes of the counter. *)
Definition seed_after (i : input) (s : Z) : Z :=
  match i with
  | Call_sendMessageOneWay _ _ _
  | Call_sendMessageRequest _ _ _ _ => incr s
  | _ => s
  end.

(** The counter seen by the request of index [p]: 1 for the first, one more
    for each, up to the limit. *)
Definition seed_of (p : nat) : Z := Z.min (1 + Z.of_nat p) seed_limit.

(** Requests are numbered by the counter: the counter is that of the next
    request, and each identifier is made of the counter of its request. *)
Record numbered (st : state) : Prop := Numbered {
  num_seed : seed st = seed_of (length (identifiers st));
  num_ids :
    forall p id, identifiers st !! p = Some id ->
      exists now, id = message_id (seed_of p) now
}.

(** *** Numbers *)

(** A number below zero, above zero. *)
Definition negative (n : number) : Prop :=
  match n with
  | Finite q => (q < 0)%Q
  | Infinity sign => sign = true
  | NaN => False
  end.

Definition positive (n : number) : Prop :=
  match n with
  | Finite q => (0 < q)%Q
  | Infinity sign => sign = false
  | NaN => False
  end.

(** The two invariants together. *)
Definition operational (st : state) : Prop := consistent st /\ numbered st.

(** ** Closures evolve *)

Lemma evolves_refl c : evolves c c.
Proof. repeat split; reflexivity. Qed.

Lemma evolves_trans c1 c2 c3 : evolves c1 c2 -> evolves c2 c3 -> evolves c1 c3.
Proof.
  intros (? & ? & ? & ? & ?) (? & ? & ? & ? & ?).
  repeat split; try congruence. etrans; eassumption.
Qed.

Lemma evolves_with_timer v c : evolves c (with_timer v c).
Proof. repeat split; reflexivity. Qed.

Lemma evolves_with_settlement s c : evolves c (with_settlement s c).
Proof.
  repeat split; try reflexivity. simpl. apply prefix_app_r. reflexivity.
Qed.

(** ** Reasoning rules for computations

    A relation between the state before and the state after that is
    reflexive and transitive holds across a computation once it holds across
    each update the computation makes. *)
Section Preservation.

Variable R : state -> state -> Prop.
Hypothesis R_refl : forall st, R st st.
Hypothesis R_trans : forall a b c, R a b -> R b c -> R a c.

Definition preserves {A} (m : js A) : Prop := forall st, R st (snd (m st)).

Lemma preserves_ret {A} (a : A) : preserves (ret a).
Proof. intros st. apply R_refl. Qed.

Lemma preserves_throw {A} (e : exn) : preserves (@throw A e).
Proof. intros st. apply R_refl. Qed.

Lemma preserves_gets {A} (f : state -> A) : preserves (gets f).
Proof. intros st. apply R_refl. Qed.

Lemma preserves_modify (f : state -> state) :
  (forall st, R st (f st)) -> preserves (modify f).
Proof. intros H st. apply H. Qed.

Lemma preserves_bind {A B} (m : js A) (k : A -> js B) :
  preserves m -> (forall a, preserves (k a)) -> preserves (bind m k).
Proof.
  intros Hm Hk st. unfold bind.
  specialize (Hm st). destruct (m st) as [[a|e] st1]; simpl in *.
  - eapply R_trans; [exact Hm | apply Hk].
  - exact Hm.
Qed.

Hypothesis R_log : forall e st, R st (log e st).
Hypothesis R_listeners : forall v st, R st (set_listeners v st).
Hypothesis R_timers : forall v n st, R st (set_timers v n st).
Hypothesis R_alter :
  forall f p st,
    (forall c, evolves c (f c)) ->
    R st (set_closures (alter f p (closures st)) st).

Ltac preserve :=
  repeat first
    [ apply preserves_ret | apply preserves_throw | apply preserves_gets
    | apply preserves_bind; [| intros ?]
    | apply preserves_modify; intros ?;
      first [ apply R_log | apply R_listeners | apply R_timers
            | apply R_alter; intros ?;
              first [apply evolves_with_timer | apply evolves_with_settlement] ]
    | match goal with
      | |- preserves (match ?x with _ => _ end) => destruct x
      end ].

Lemma preserves_listener_subscribe s : preserves (listener_subscribe s).
Proof. unfold listener_subscribe. preserve. Qed.

Lemma preserves_listener_removeAllListeners ch :
  preserves (listener_removeAllListeners ch).
Proof. unfold listener_removeAllListeners. preserve. Qed.

Lemma preserves_emitter_send ch v : preserves (emitter_send ch v).
Proof. unfold emitter_send. preserve. Qed.

Lemma preserves_setTimeout p d : preserves (setTimeout p d).
Proof. unfold setTimeout. preserve. Qed.

Lemma preserves_clearTimeout h : preserves (clearTimeout h).
Proof. unfold clearTimeout. preserve. Qed.

Lemma preserves_settle p s : preserves (settle p s).
Proof. unfold settle. preserve. Qed.

Lemma preserves_assign_timer p v : preserves (assign_timer p v).
Proof. unfold assign_timer. preserve. Qed.

Lemma preserves_executor id a d o i t p : preserves (executor id a d o i t p).
Proof.
  unfold executor, listener_once.
  repeat first
    [ apply preserves_setTimeout | apply preserves_assign_timer
    | apply preserves_listener_subscribe | apply preserves_emitter_send
    | progress preserve ].
Qed.

Lemma preserves_sendMessageReply m d ev : preserves (sendMessageReply m d ev).
Proof.
  unfold sendMessageReply.
  destruct ev as [e|]; [destruct (event_reply (Some e))|];
    first [ apply preserves_emitter_send | preserve ].
Qed.

Lemma preserves_on_timeout p c : preserves (on_timeout p c).
Proof.
  unfold on_timeout, console_warn.
  repeat first
    [ apply preserves_assign_timer | apply preserves_settle
    | apply preserves_listener_removeAllListeners | progress preserve ].
Qed.

Lemma preserves_on_reply p c r : preserves (on_reply p c r).
Proof.
  unfold on_reply, console_warn.
  repeat first
    [ apply preserves_clearTimeout | apply preserves_settle
    | progress preserve ].
Qed.

Lemma preserves_on_request cb ev m : preserves (on_request cb ev m).
Proof. unfold on_request. preserve. Qed.

Lemma preserves_call_handler f ev v : preserves (call_handler f ev v).
Proof.
  unfold call_handler. destruct f; [apply preserves_on_request|].
  preserve; apply preserves_on_reply.
Qed.

Lemma preserves_dispatch subs ev v : preserves (dispatch subs ev v).
Proof.
  induction subs as [|s rest IH]; simpl.
  - apply preserves_ret.
  - apply preserves_bind; [preserve|intros _].
    apply preserves_bind; [apply preserves_call_handler|intros _; exact IH].
Qed.

Lemma preserves_emit ch ev v : preserves (emit ch ev v).
Proof.
  unfold emit. apply preserves_bind; [preserve|intros ?].
  apply preserves_dispatch.
Qed.

Lemma preserves_fire h : preserves (fire h).
Proof.
  unfold fire.
  repeat first [ apply preserves_on_timeout | progress preserve ].
Qed.

Hypothesis R_seed : forall v st, R st (set_seed v st).
Hypothesis R_push : forall c st, R st (set_closures (closures st ++ [c])%list st).

Lemma preserves_post_increment_seed : preserves post_increment_seed.
Proof.
  unfold post_increment_seed. preserve.
  apply preserves_modify. intros st. apply R_seed.
Qed.

Lemma preserves_new_Promise c (ex : nat -> js unit) :
  (forall p, preserves (ex p)) -> preserves (new_Promise c ex).
Proof.
  intros Hex. unfold new_Promise.
  apply preserves_bind; [preserve|intros p].
  apply preserves_bind;
    [apply preserves_modify; intros st; apply R_push|intros _].
  intros st. specialize (Hex p st).
  destruct (ex p st) as [[[]|e] st1]; simpl in *; [exact Hex|].
  eapply R_trans; [exact Hex|apply preserves_settle].
Qed.

Lemma preserves_sendMessageRequest a d t now :
  preserves (sendMessageRequest a d t now).
Proof.
  unfold sendMessageRequest.
  apply preserves_bind; [apply preserves_post_increment_seed|intros s].
  apply preserves_new_Promise. intros p. apply preserves_executor.
Qed.

(** Every input but a call of initMessaging in a state not yet
    initialized. *)
Lemma preserves_step i st :
  (forall l e cb, i = Call_initMessaging l e cb -> initialized st) ->
  R st (step i st).
Proof.
  intros Hinit. destruct i; simpl.
  - specialize (Hinit _ _ _ eq_refl). unfold initialized in Hinit.
    unfold initMessaging, bind, gets. simpl. rewrite Hinit. apply R_refl.
  - apply preserves_sendMessageRequest.
  - apply preserves_sendMessageReply.
  - apply preserves_sendMessageRequest.
  - apply preserves_fire.
  - apply preserves_emit.
Qed.

Hypothesis R_listenerObj : forall v st, R st (set_listenerObj v st).
Hypothesis R_emitterObj : forall v st, R st (set_emitterObj v st).

Lemma preserves_initMessaging l e cb : preserves (initMessaging l e cb).
Proof.
  unfold initMessaging, listener_on.
  repeat first
    [ apply preserves_listener_subscribe
    | apply preserves_modify; intros ?;
      first [apply R_listenerObj | apply R_emitterObj]
    | progress preserve ].
Qed.

End Preservation.

(** ** initMessaging *)

Lemma same_objects_refl st : same_objects st st.
Proof. split; reflexivity. Qed.

Lemma same_objects_trans a b c :
  same_objects a b -> same_objects b c -> same_objects a c.
Proof. intros [? ?] [? ?]. split; congruence. Qed.

Lemma step_same_objects i st :
  (forall l e cb, i = Call_initMessaging l e cb -> initialized st) ->
  same_objects st (step i st).
Proof.
  apply preserves_step;
    first [ exact same_objects_refl | exact same_objects_trans
          | intros; split; reflexivity ].
Qed.

(** The three ways initMessaging ends. *)
Lemma initMessaging_cases l e cb st :
  (initialized st /\
   initMessaging l e cb st = (Raise AlreadyInitialized, st)) \/
  (~ initialized st /\ (l = None \/ cb = None) /\
   initMessaging l e cb st = (Raise InvalidParameters, st)) \/
  (~ initialized st /\ exists l' cb' st',
     l = Some l' /\ cb = Some cb' /\
     initMessaging l e cb st = (Ok tt, st') /\
     listenerObj st' = Some l' /\
     emitterObj st' = (if truthy e then e else Some l') /\
     listeners st' =
       (listeners st ++ [Subscription "message-request" false (OnRequest cb')])%list /\
     trace st' = (trace st ++ [EOn l' "message-request"])%list /\
     seed st' = seed st /\ closures st' = closures st /\
     timers st' = timers st /\ next_timer st' = next_timer st).
Proof.
  unfold initialized, initMessaging, bind, gets.
  destruct (truthy (emitterObj st)) eqn:Hinit; simpl.
  - left. split; [reflexivity|]. reflexivity.
  - right. destruct l as [l'|]; [destruct cb as [cb'|]|].
    + right. split; [discriminate|].
      exists l', cb'. eexists. repeat split; try reflexivity.
    + left. split; [discriminate|]. split; [right|]; reflexivity.
    + left. split; [discriminate|]. split; [left|].
      * reflexivity.
      * destruct cb; reflexivity.
Qed.

Lemma initialized_step i st : initialized st -> initialized (step i st).
Proof.
  intros Hinit. unfold initialized.
  destruct (step_same_objects i st) as [-> _]; auto.
Qed.

Lemma initialized_run inputs st :
  initialized st -> initialized (run inputs st).
Proof.
  revert st. induction inputs as [|i rest IH]; intros st Hinit; simpl.
  - exact Hinit.
  - apply IH, initialized_step, Hinit.
Qed.

Lemma truthy_emitterObj_run inputs st :
  truthy (emitterObj (run inputs st)) =
  truthy (emitterObj st) || initialized_by inputs st.
Proof.
  revert st. induction inputs as [|i rest IH]; intros st; simpl.
  - rewrite orb_false_r. reflexivity.
  - rewrite IH. clear IH.
    destruct (truthy (emitterObj st)) eqn:Hinit.
    + rewrite (initialized_step i st Hinit). reflexivity.
    + assert (Hother : (forall l e cb, i <> Call_initMessaging l e cb) ->
                       emitterObj (step i st) = emitterObj st).
      { intros Hne. apply step_same_objects.
        intros l e cb ->. destruct (Hne _ _ _ eq_refl). }
      destruct i as [listener emitter callback| | | | |];
        try (rewrite Hother by discriminate; simpl; rewrite Hinit;
             reflexivity).
      clear Hother. simpl.
      destruct (initMessaging_cases listener emitter callback st)
        as [[Hi _]|[(_ & _ & ->)|(_ & l' & cb' & st' & _ & _ & -> & _ & He & _)]].
      * unfold initialized in Hi. congruence.
      * simpl. rewrite Hinit. reflexivity.
      * simpl. rewrite He. destruct emitter; reflexivity.
Qed.

Lemma initMessaging_initialized l e cb st :
  initialized st ->
  initMessaging l e cb st = (Raise AlreadyInitialized, st).
Proof.
  intros Hinit.
  destruct (initMessaging_cases l e cb st)
    as [[_ H]|[(Hn & _)|(Hn & _)]]; [exact H|contradiction..].
Qed.

Lemma initMessaging_ok_initialized l e cb st st' :
  initMessaging l e cb st = (Ok tt, st') -> initialized st'.
Proof.
  intros Hok.
  destruct (initMessaging_cases l e cb st)
    as [[_ H]|[(_ & _ & H)|(_ & l' & cb' & st1 & _ & _ & H & _ & He & _)]];
    rewrite H in Hok; try discriminate.
  injection Hok as <-. unfold initialized. rewrite He.
  destruct e; reflexivity.
Qed.

(** C8: initMessaging throws the error "Already initialized" exactly when an
    earlier call of initMessaging has returned normally, so every call after
    a successful one throws it, whatever happened in between and whatever
    its arguments; and a call made before any successful one throws
    "Invalid parameters" exactly when the listener or the callback is missing.
    Both are the outcome of the call itself. *)
Theorem initMessaging_errors (inputs : list input)
    (listener emitter callback : option nat) :
  let st := run inputs initial_state in
  let outcome := initMessaging listener emitter callback st in
  (fst outcome = Raise AlreadyInitialized <->
   initialized_by inputs initial_state = true) /\
  (initialized_by inputs initial_state = false ->
   (fst outcome = Raise InvalidParameters <->
    listener = None \/ callback = None)) /\
  (fst outcome = Ok tt ->
   forall more l e cb,
     fst (initMessaging l e cb (run more (snd outcome))) =
     Raise AlreadyInitialized).
Proof.
  intros st outcome.
  assert (Hby : truthy (emitterObj st) = initialized_by inputs initial_state).
  { unfold st. rewrite truthy_emitterObj_run. reflexivity. }
  unfold outcome.
  destruct (initMessaging_cases listener emitter callback st)
    as [[Hi H]|[(Hn & Hmiss & H)|(Hn & l' & cb' & st' & -> & -> & H & _)]];
    rewrite H; simpl; unfold initialized in *; rewrite <- Hby.
  - split; [tauto|]. split; [congruence|discriminate].
  - split; [split; [discriminate|congruence]|].
    split; [tauto|discriminate].
  - split; [split; [discriminate|congruence]|].
    split.
    + intros _. split; [discriminate|]. intros [?|?]; discriminate.
    + intros _ more l e cb.
      rewrite initMessaging_initialized; [reflexivity|].
      apply initialized_run. eapply initMessaging_ok_initialized, H.
Qed.

(** C10: when initMessaging throws, the state after the call is the state
    before it: no module variable has been assigned and nothing has been
    subscribed.  A call that failed with "Invalid parameters" therefore
    leaves initialization available: the next call with a listener and a
    callback returns normally.  In an initialized state the call throws
    "Already initialized" even when its own arguments are missing. *)
Theorem initMessaging_failure_leaves_state (st : state)
    (listener emitter callback : option nat) :
  let outcome := initMessaging listener emitter callback st in
  (forall e, fst outcome = Raise e ->
     (e = AlreadyInitialized \/ e = InvalidParameters) /\ snd outcome = st) /\
  (fst outcome = Raise InvalidParameters ->
   forall l e cb,
     fst (initMessaging (Some l) e (Some cb) (snd outcome)) = Ok tt) /\
  (truthy (emitterObj st) = true ->
   fst (initMessaging None emitter None st) = Raise AlreadyInitialized).
Proof.
  intros outcome. unfold outcome.
  destruct (initMessaging_cases listener emitter callback st)
    as [[Hi H]|[(Hn & Hmiss & H)|(Hn & l' & cb' & st' & -> & -> & H & _)]];
    rewrite H; simpl.
  - split; [intros e [= <-]; auto|].
    split; [discriminate|].
    intros _. rewrite initMessaging_initialized; auto.
  - split; [intros e [= <-]; auto|].
    split; [|intros Hi; contradiction].
    intros _ l e cb.
    destruct (initMessaging_cases (Some l) e (Some cb) st)
      as [[Hi _]|[(_ & [?|?] & _)|(_ & ? & ? & ? & _ & _ & -> & _)]];
      try discriminate; [contradiction|reflexivity].
  - split; [discriminate|]. split; [discriminate|].
    intros Hi; contradiction.
Qed.

(** ** What a call of sendMessageRequest does *)

Lemma alter_last {A} (f : A -> A) (l : list A) (x : A) :
  alter f (length l) (l ++ [x])%list = (l ++ [f x])%list.
Proof.
  rewrite <- (Nat.add_0_r (length l)) at 1.
  rewrite alter_app_r. reflexivity.
Qed.

Lemma oneWay_not_infinite t : oneWay_of t = true -> infinite_of t = false.
Proof.
  unfold oneWay_of, infinite_of.
  destruct t as [[| |q]|]; simpl; try discriminate.
  intros ->. reflexivity.
Qed.

Ltac unfold_updates :=
  unfold log, set_listeners, set_closures, set_seed, set_timers,
    set_emitterObj, set_listenerObj; cbn.

(** The state after the call, in a state where both objects are set. *)
Lemma sendMessageRequest_oneWay a d t now st l e :
  listenerObj st = Some l -> emitterObj st = Some e ->
  oneWay_of t = true ->
  sendMessageRequest a d t now st =
  (Ok (length (closures st)),
   {| seed := incr (seed st); emitterObj := Some e; listenerObj := Some l;
      closures :=
        (closures st ++
         [Closure (message_id (seed st) now) a true false None []])%list;
      listeners := listeners st; timers := timers st;
      next_timer := next_timer st;
      trace :=
        (trace st ++
         [ESend e "message-request"
            (message (message_id (seed st) now) a d)])%list |}).
Proof.
  intros Hl He Ho. pose proof (oneWay_not_infinite t Ho) as Hi.
  unfold oneWay_of, infinite_of in *.
  destruct st; simpl in *; subst.
  unfold sendMessageRequest. rewrite Ho, Hi. reflexivity.
Qed.

Lemma sendMessageRequest_infinite a d t now st l e :
  listenerObj st = Some l -> emitterObj st = Some e ->
  oneWay_of t = false -> infinite_of t = true ->
  sendMessageRequest a d t now st =
  (Ok (length (closures st)),
   {| seed := incr (seed st); emitterObj := Some e; listenerObj := Some l;
      closures :=
        (closures st ++
         [Closure (message_id (seed st) now) a false true None []])%list;
      listeners :=
        (listeners st ++
         [Subscription (message_id (seed st) now) true
            (OnReply (length (closures st)))])%list;
      timers := timers st; next_timer := next_timer st;
      trace :=
        (trace st ++
         [EOnce l (message_id (seed st) now);
          ESend e "message-request"
            (message (message_id (seed st) now) a d)])%list |}).
Proof.
  intros Hl He Ho Hi. unfold oneWay_of, infinite_of in *.
  destruct st; simpl in *; subst.
  unfold sendMessageRequest. rewrite Ho, Hi.
  cbn. unfold_updates. rewrite <- !app_assoc. reflexivity.
Qed.

Lemma sendMessageRequest_finite a d t now st l e :
  listenerObj st = Some l -> emitterObj st = Some e ->
  oneWay_of t = false -> infinite_of t = false ->
  sendMessageRequest a d t now st =
  (Ok (length (closures st)),
   {| seed := incr (seed st); emitterObj := Some e; listenerObj := Some l;
      closures :=
        (closures st ++
         [Closure (message_id (seed st) now) a false false
            (Some (next_timer st)) []])%list;
      listeners :=
        (listeners st ++
         [Subscription (message_id (seed st) now) true
            (OnReply (length (closures st)))])%list;
      timers := <[next_timer st := length (closures st)]> (timers st);
      next_timer := S (next_timer st);
      trace :=
        (trace st ++
         [ESetTimeout (next_timer st) (delay_of t);
          EOnce l (message_id (seed st) now);
          ESend e "message-request"
            (message (message_id (seed st) now) a d)])%list |}).
Proof.
  intros Hl He Ho Hi. unfold delay_of, oneWay_of, infinite_of in *.
  destruct st; simpl in *; subst.
  unfold sendMessageRequest. rewrite Ho, Hi.
  lazy beta iota zeta delta
    [new_Promise post_increment_seed executor setTimeout assign_timer
     listener_once listener_subscribe emitter_send settle bind gets modify
     ret log set_seed set_closures set_listeners set_timers
     seed emitterObj listenerObj closures listeners timers next_timer trace
     s_once s_channel negb andb fst snd].
  rewrite alter_last, <- !app_assoc. reflexivity.
Qed.


(** Reduction of the projections of states, closures and subscriptions,
    and of nothing else. *)
Ltac fields :=
  cbn [seed emitterObj listenerObj closures listeners timers next_timer trace
       c_id c_action c_oneWay c_infinite c_timer c_settled
       s_channel s_once s_handler with_timer with_settlement
       set_seed set_closures set_listeners set_timers log
       set_emitterObj set_listenerObj fst snd app] in *.

(** ** The invariant of an initialized module *)

Lemma consistent_after_init l e cb : consistent (started l e cb []).
Proof.
  unfold started. simpl.
  split; simpl.
  - exists l. destruct e as [e|]; eauto.
  - intros h p H. rewrite lookup_empty in H. discriminate.
  - intros s p Hs Hp. apply list_elem_of_singleton in Hs. subst s.
    discriminate.
  - apply NoDup_singleton.
  - intros p c H. discriminate.
  - intros s cb' Hs _. apply list_elem_of_singleton in Hs. subst s.
    reflexivity.
Qed.

Lemma consistent_log e st : consistent st -> consistent (log e st).
Proof. intros [H1 H2 H3 H4 H5 H6]. split; assumption. Qed.

Lemma NoDup_handlers_filter (P : subscription -> Prop)
    `{!forall s, Decision (P s)} (l : list subscription) :
  NoDup (s_handler <$> l) -> NoDup (s_handler <$> filter P l).
Proof.
  intros Hnd. eapply sublist_NoDup; [exact Hnd|].
  apply fmap_sublist. apply sublist_filter.
Qed.

Lemma consistent_unsubscribe (P : subscription -> Prop)
    `{!forall s, Decision (P s)} st :
  consistent st -> consistent (set_listeners (filter P (listeners st)) st).
Proof.
  intros [H1 H2 H3 H4 H5 H6]. split; fields; try assumption.
  - intros s p Hs. apply list_elem_of_filter in Hs as [_ Hs]. auto.
  - apply NoDup_handlers_filter, H4.
  - intros s cb Hs. apply list_elem_of_filter in Hs as [_ Hs]. eauto.
Qed.

Lemma consistent_sendMessageRequest a d t now st :
  consistent st -> consistent (snd (sendMessageRequest a d t now st)).
Proof.
  intros [(l & e & Hl & He) Ht Hr Hn Ho Hq].
  assert (Hfresh : forall s, s ∈ listeners st ->
                     s_handler s <> OnReply (length (closures st))).
  { intros s Hs Heq. destruct (Hr s _ Hs Heq) as (c & Hc & _).
    apply lookup_lt_Some in Hc. lia. }
  destruct (oneWay_of t) eqn:Hone; [|destruct (infinite_of t) eqn:Hinf].
  - rewrite (sendMessageRequest_oneWay a d t now st l e) by assumption.
    split; fields.
    + eauto.
    + intros h p Hh. destruct (Ht h p Hh) as (Hlt & c & Hc & Hrest).
      split; [exact Hlt|]. exists c.
      split; [apply lookup_app_l_Some, Hc|exact Hrest].
    + intros s p Hs Hp. destruct (Hr s p Hs Hp) as (c & Hc & Hrest).
      exists c. split; [apply lookup_app_l_Some, Hc|exact Hrest].
    + exact Hn.
    + intros p c Hc. apply lookup_app_Some in Hc as [Hc|[_ Hc]]; [eauto|].
      apply list_lookup_singleton_Some in Hc as [_ <-]. left. reflexivity.
    + exact Hq.
  - rewrite (sendMessageRequest_infinite a d t now st l e) by assumption.
    split; fields.
    + eauto.
    + intros h p Hh. destruct (Ht h p Hh) as (Hlt & c & Hc & Hrest).
      split; [exact Hlt|]. exists c.
      split; [apply lookup_app_l_Some, Hc|exact Hrest].
    + intros s p Hs Hp. apply elem_of_app in Hs as [Hs|Hs].
      * destruct (Hr s p Hs Hp) as (c & Hc & Hrest).
        exists c. split; [apply lookup_app_l_Some, Hc|exact Hrest].
      * apply list_elem_of_singleton in Hs. subst s. fields.
        injection Hp as <-. eexists. split.
        { rewrite lookup_app_r by lia. rewrite Nat.sub_diag. reflexivity. }
        split; [reflexivity|]. repeat split.
    + rewrite fmap_app. apply NoDup_app. split; [exact Hn|]. split.
      * intros f Hf Hf'. apply list_elem_of_singleton in Hf'.
        apply list_elem_of_fmap in Hf as (s & -> & Hs).
        exact (Hfresh s Hs Hf').
      * apply NoDup_singleton.
    + intros p c Hc. apply lookup_app_Some in Hc as [Hc|[_ Hc]]; [eauto|].
      apply list_lookup_singleton_Some in Hc as [_ <-]. left. reflexivity.
    + intros s cb Hs Hcb. apply elem_of_app in Hs as [Hs|Hs]; [eauto|].
      apply list_elem_of_singleton in Hs. subst s. discriminate.
  - rewrite (sendMessageRequest_finite a d t now st l e) by assumption.
    split; fields.
    + eauto.
    + intros h p Hh. apply lookup_insert_Some in Hh as [[<- <-]|[Hne Hh]].
      * split; [lia|]. eexists. split.
        { rewrite lookup_app_r by lia. rewrite Nat.sub_diag. reflexivity. }
        repeat split.
      * destruct (Ht h p Hh) as (Hlt & c & Hc & Hrest).
        split; [lia|]. exists c.
        split; [apply lookup_app_l_Some, Hc|exact Hrest].
    + intros s p Hs Hp. apply elem_of_app in Hs as [Hs|Hs].
      * destruct (Hr s p Hs Hp) as (c & Hc & Hs' & Hset & Hw & Haw).
        exists c. split; [apply lookup_app_l_Some, Hc|].
        split; [exact Hs'|]. split; [exact Hset|]. split; [exact Hw|].
        destruct (c_infinite c); [exact Haw|].
        destruct Haw as (h & Hh & Hth). exists h. split; [exact Hh|]. fields.
        rewrite lookup_insert_ne; [exact Hth|].
        destruct (Ht h p Hth) as [Hlt _]. lia.
      * apply list_elem_of_singleton in Hs. subst s. fields.
        injection Hp as <-. eexists. split.
        { rewrite lookup_app_r by lia. rewrite Nat.sub_diag. reflexivity. }
        split; [reflexivity|]. repeat split. fields.
        eexists. split; [reflexivity|]. apply lookup_insert_eq.
    + rewrite fmap_app. apply NoDup_app. split; [exact Hn|]. split.
      * intros f Hf Hf'. apply list_elem_of_singleton in Hf'.
        apply list_elem_of_fmap in Hf as (s & -> & Hs).
        exact (Hfresh s Hs Hf').
      * apply NoDup_singleton.
    + intros p c Hc. apply lookup_app_Some in Hc as [Hc|[_ Hc]]; [eauto|].
      apply list_lookup_singleton_Some in Hc as [_ <-]. left. reflexivity.
    + intros s cb Hs Hcb. apply elem_of_app in Hs as [Hs|Hs]; [eauto|].
      apply list_elem_of_singleton in Hs. subst s. discriminate.
Qed.

(** Unfolding of the computations, leaving lists and maps alone. *)
Ltac js_eval :=
  lazy beta iota zeta delta
    [fire emit on_timeout on_reply on_request call_handler
     new_Promise post_increment_seed executor setTimeout clearTimeout
     assign_timer console_warn listener_once listener_on listener_subscribe
     listener_removeAllListeners emitter_send settle bind gets modify ret
     throw log set_seed set_closures set_listeners set_timers
     set_emitterObj set_listenerObj truthy
     seed emitterObj listenerObj closures listeners timers next_timer trace
     c_id c_action c_oneWay c_infinite c_timer c_settled
     s_once s_channel s_handler negb andb fst snd].

(** ** What a timer does when it fires *)

Lemma fire_armed h p c l st :
  listenerObj st = Some l ->
  timers st !! h = Some p -> closures st !! p = Some c ->
  fire h st =
  (Ok tt,
   {| seed := seed st; emitterObj := emitterObj st; listenerObj := Some l;
      closures :=
        alter (with_settlement (Rejected (VStr "Timed out"))) p
          (alter (with_timer None) p (closures st));
      listeners := filter (fun s => s_channel s <> c_id c) (listeners st);
      timers := delete h (timers st); next_timer := next_timer st;
      trace :=
        (trace st ++
         [ERemoveAllListeners l (c_id c);
          EWarn (TimeOut (c_id c) (c_action c))])%list |}).
Proof.
  intros Hl Hh Hc. destruct st; fields; subst.
  js_eval. rewrite Hh, Hc. js_eval.
  rewrite <- !app_assoc. reflexivity.
Qed.

Lemma fire_idle h st : timers st !! h = None -> fire h st = (Ok tt, st).
Proof.
  intros Hh. destruct st; fields. js_eval. rewrite Hh. reflexivity.
Qed.

Lemma consistent_fire h st : consistent st -> consistent (snd (fire h st)).
Proof.
  intros Hcons. destruct (timers st !! h) as [p|] eqn:Hh;
    [|rewrite fire_idle by assumption; exact Hcons].
  destruct Hcons as [(l & e & Hl & He) Ht Hr Hn Ho Hq].
  destruct (Ht h p Hh) as (Hlt & c & Hc & Htimer & Hset & Hone & Hinf).
  rewrite (fire_armed h p c l st) by assumption.
  assert (Hother : forall h' p', timers st !! h' = Some p' -> h' <> h ->
                     p' <> p).
  { intros h' p' Hh' Hne ->.
    destruct (Ht h' p Hh') as (_ & c' & Hc' & Htimer' & _). congruence. }
  split; fields.
  - eauto.
  - intros h' p' Hh'. apply lookup_delete_Some in Hh' as [Hne Hh'].
    destruct (Ht h' p' Hh') as (Hlt' & c' & Hc' & Hrest).
    split; [exact Hlt'|]. exists c'. split; [|exact Hrest].
    assert (p <> p')
      by (intros ->; exact (Hother h' p' Hh' (not_eq_sym Hne) eq_refl)).
    rewrite !list_lookup_alter_ne by assumption. exact Hc'.
  - intros s p' Hs Hp. apply list_elem_of_filter in Hs as [Hch Hs].
    destruct (Hr s p' Hs Hp) as (c' & Hc' & -> & Hset' & Hone' & Haw).
    assert (p <> p') by (intros <-; fields; congruence).
    exists c'. split; [rewrite !list_lookup_alter_ne by assumption; exact Hc'|].
    split; [reflexivity|]. split; [exact Hset'|]. split; [exact Hone'|].
    destruct (c_infinite c'); [exact Haw|].
    destruct Haw as (h' & Hh' & Hth'). exists h'. split; [exact Hh'|]. fields.
    rewrite lookup_delete_ne; [exact Hth'|]. intros <-. congruence.
  - apply NoDup_handlers_filter, Hn.
  - intros p' c' Hc'. destruct (decide (p = p')) as [<-|Hne].
    + rewrite list_lookup_alter_eq, list_lookup_alter_eq, Hc in Hc'.
      fields. injection Hc' as <-.
      right. right. fields. rewrite Hset. auto.
    + rewrite !list_lookup_alter_ne in Hc' by assumption. eauto.
  - intros s cb Hs. apply list_elem_of_filter in Hs as [_ Hs]. eauto.
Qed.

(** ** What a reply does when it arrives *)

Lemma on_reply_awaiting p c r st :
  closures st !! p = Some c -> awaiting st p c ->
  on_reply p c r st =
  (Ok tt,
   match c_timer c with
   | Some h =>
       {| seed := seed st; emitterObj := emitterObj st;
          listenerObj := listenerObj st;
          closures := alter (with_settlement (Resolved r)) p (closures st);
          listeners := listeners st; timers := delete h (timers st);
          next_timer := next_timer st;
          trace := (trace st ++ [EClearTimeout h])%list |}
   | None =>
       set_closures (alter (with_settlement (Resolved r)) p (closures st)) st
   end).
Proof.
  intros Hc (Hset & Hone & Haw). unfold on_reply.
  destruct (c_infinite c); simpl.
  - rewrite Haw. reflexivity.
  - destruct Haw as (h & -> & Hh). reflexivity.
Qed.

(** Request [p] is resolved while it is no longer subscribed. *)
Lemma consistent_on_reply p c r st :
  consistent st -> closures st !! p = Some c -> awaiting st p c ->
  (forall s, s ∈ listeners st -> s_handler s <> OnReply p) ->
  consistent (snd (on_reply p c r st)).
Proof.
  intros [Hobj Ht Hr Hn Ho Hq] Hc Haw Hunsub.
  rewrite on_reply_awaiting by assumption. simpl.
  assert (Hp : forall s p', s ∈ listeners st -> s_handler s = OnReply p' ->
                 p <> p').
  { intros s p' Hs Hp' <-. exact (Hunsub s Hs Hp'). }
  assert (Hout : forall p' c',
            alter (with_settlement (Resolved r)) p (closures st) !! p'
              = Some c' -> outcome_ok c').
  { intros p' c' Hc'. destruct (decide (p = p')) as [<-|Hne].
    - rewrite list_lookup_alter_eq, Hc in Hc'. fields.
      injection Hc' as <-. right. left. exists r. fields.
      destruct Haw as (-> & -> & _). auto.
    - rewrite list_lookup_alter_ne in Hc' by assumption. eauto. }
  destruct Haw as (Hset & Hone & Haw).
  destruct (c_timer c) as [h|] eqn:Htimer.
  - assert (Hh : timers st !! h = Some p).
    { destruct (c_infinite c); [discriminate|].
      destruct Haw as (h' & [= <-] & Hh). exact Hh. }
    split; fields.
    + exact Hobj.
    + intros h' p' Hh'. apply lookup_delete_Some in Hh' as [Hne Hh'].
      destruct (Ht h' p' Hh') as (Hlt' & c' & Hc' & Htimer' & Hrest).
      split; [exact Hlt'|]. exists c'. split; [|auto].
      rewrite list_lookup_alter_ne; [exact Hc'|]. intros <-. congruence.
    + intros s p' Hs Hp'. pose proof (Hp s p' Hs Hp') as Hne.
      destruct (Hr s p' Hs Hp') as (c' & Hc' & -> & Hset' & Hone' & Haw').
      exists c'. split; [rewrite list_lookup_alter_ne by assumption; exact Hc'|].
      split; [reflexivity|]. split; [exact Hset'|]. split; [exact Hone'|].
      destruct (c_infinite c'); [exact Haw'|].
      destruct Haw' as (h' & Hh' & Hth'). exists h'. split; [exact Hh'|]. fields.
      rewrite lookup_delete_ne; [exact Hth'|]. intros <-. congruence.
    + exact Hn.
    + exact Hout.
    + exact Hq.
  - split; fields.
    + exact Hobj.
    + intros h' p' Hh'.
      destruct (Ht h' p' Hh') as (Hlt' & c' & Hc' & Htimer' & Hrest).
      split; [exact Hlt'|]. exists c'. split; [|auto].
      rewrite list_lookup_alter_ne; [exact Hc'|]. intros <-. congruence.
    + intros s p' Hs Hp'. pose proof (Hp s p' Hs Hp') as Hne.
      destruct (Hr s p' Hs Hp') as (c' & Hc' & Hrest).
      exists c'. split; [|exact Hrest].
      rewrite list_lookup_alter_ne by assumption. exact Hc'.
    + exact Hn.
    + exact Hout.
    + exact Hq.
Qed.

Lemma consistent_on_request cb ev v st :
  consistent st -> consistent (snd (on_request cb ev v st)).
Proof.
  intros Hcons. unfold on_request.
  destruct (get_prop v "action"), (get_prop v "data"), (get_prop v "id");
    simpl; first [exact Hcons | apply consistent_log, Hcons].
Qed.

Lemma on_request_listeners cb ev v st :
  listeners (snd (on_request cb ev v st)) = listeners st.
Proof.
  unfold on_request.
  destruct (get_prop v "action"), (get_prop v "data"), (get_prop v "id");
    reflexivity.
Qed.

Lemma on_reply_listeners p c r st :
  closures st !! p = Some c -> awaiting st p c ->
  listeners (snd (on_reply p c r st)) = listeners st.
Proof.
  intros Hc Haw. rewrite on_reply_awaiting by assumption.
  destruct (c_timer c); reflexivity.
Qed.

Lemma call_handler_reply p c ev v st :
  closures st !! p = Some c ->
  call_handler (OnReply p) ev v st = on_reply p c v st.
Proof.
  intros Hc. unfold call_handler, bind, gets.
  cbn [fst snd]. rewrite Hc. reflexivity.
Qed.

Lemma dispatch_cons s rest ev v st :
  dispatch (s :: rest) ev v st =
  match call_handler (s_handler s) ev v (unsubscribed s st) with
  | (Ok _, st') => dispatch rest ev v st'
  | (Raise e, st') => (Raise e, st')
  end.
Proof.
  unfold unsubscribed. cbn [dispatch]. unfold bind.
  destruct (s_once s); reflexivity.
Qed.

Lemma consistent_unsubscribed s st :
  consistent st -> consistent (unsubscribed s st).
Proof.
  intros Hcons. unfold unsubscribed. destruct (s_once s); [|exact Hcons].
  apply consistent_unsubscribe with (P := fun s' => s' <> s). exact Hcons.
Qed.

(** One turn keeps the invariant and the other subscriptions. *)
Lemma consistent_turn s ev v st :
  consistent st -> s ∈ listeners st ->
  consistent (snd (call_handler (s_handler s) ev v (unsubscribed s st))) /\
  forall s', s' ∈ listeners st -> s' <> s ->
    s' ∈ listeners
           (snd (call_handler (s_handler s) ev v (unsubscribed s st))).
Proof.
  intros Hcons Hin.
  pose proof (consistent_unsubscribed s st Hcons) as Hcons1.
  assert (Hkeep : forall s', s' ∈ listeners st -> s' <> s ->
                    s' ∈ listeners (unsubscribed s st)).
  { intros s' Hs' Hne. unfold unsubscribed.
    destruct (s_once s); [|exact Hs']. fields.
    apply list_elem_of_filter. auto. }
  destruct (s_handler s) as [cb|p] eqn:Hh.
  - cbn [call_handler]. split; [apply consistent_on_request, Hcons1|].
    rewrite on_request_listeners. exact Hkeep.
  - destruct (cons_replies st Hcons s p Hin Hh) as (c & Hc & Hseq & Haw).
    assert (Hc1 : closures (unsubscribed s st) !! p = Some c).
    { unfold unsubscribed. destruct (s_once s); exact Hc. }
    assert (Haw1 : awaiting (unsubscribed s st) p c).
    { unfold unsubscribed. destruct (s_once s); exact Haw. }
    rewrite (call_handler_reply p c) by exact Hc1.
    split.
    + apply consistent_on_reply; try assumption.
      intros s' Hs' Hp.
      assert (Hs : s_once s = true) by (rewrite Hseq; reflexivity).
      unfold unsubscribed in Hs'. rewrite Hs in Hs'. fields.
      apply list_elem_of_filter in Hs' as [Hne Hs'].
      destruct (cons_replies st Hcons s' p Hs' Hp) as (c' & Hc' & Hseq' & _).
      apply Hne. rewrite Hseq, Hseq'. congruence.
    + rewrite on_reply_listeners by assumption. exact Hkeep.
Qed.

(** A round of calls to functions that are all subscribed, each once. *)
Lemma consistent_dispatch subs ev v st :
  consistent st ->
  (forall s, s ∈ subs -> s ∈ listeners st) ->
  NoDup (s_handler <$> subs) ->
  consistent (snd (dispatch subs ev v st)).
Proof.
  revert st. induction subs as [|s rest IH]; intros st Hcons Hsub Hnd.
  - exact Hcons.
  - rewrite fmap_cons in Hnd. apply NoDup_cons in Hnd as [Hs Hnd].
    assert (Hin : s ∈ listeners st) by (apply Hsub; left).
    destruct (consistent_turn s ev v st Hcons Hin) as [Hcons' Hkeep].
    rewrite dispatch_cons.
    destruct (call_handler (s_handler s) ev v (unsubscribed s st))
      as [[[]|err] st']; cbn [snd] in *; [|exact Hcons'].
    apply IH; [exact Hcons'| |exact Hnd].
    intros s' Hs'. apply Hkeep; [apply Hsub; right; exact Hs'|].
    intros ->. apply Hs, list_elem_of_fmap. eauto.
Qed.

Lemma consistent_emit ch ev v st :
  consistent st -> consistent (snd (emit ch ev v st)).
Proof.
  intros Hcons. unfold emit, bind, gets. simpl.
  apply consistent_dispatch.
  - exact Hcons.
  - intros s Hs. apply list_elem_of_filter in Hs as [_ Hs]. exact Hs.
  - apply NoDup_handlers_filter, (cons_nodup st Hcons).
Qed.

Lemma consistent_step i st : consistent st -> consistent (step i st).
Proof.
  intros Hcons. destruct i; simpl.
  - rewrite initMessaging_initialized; [exact Hcons|].
    destruct (cons_objects st Hcons) as (l & e & _ & He).
    unfold initialized. rewrite He. reflexivity.
  - apply consistent_sendMessageRequest, Hcons.
  - unfold sendMessageReply.
    destruct (cons_objects st Hcons) as (l & e & _ & He).
    destruct ev as [e'|]; [destruct (event_reply (Some e'))|];
      unfold emitter_send, bind, gets; simpl; rewrite ?He;
      apply consistent_log, Hcons.
  - apply consistent_sendMessageRequest, Hcons.
  - apply consistent_fire, Hcons.
  - apply consistent_emit, Hcons.
Qed.

Lemma consistent_run inputs st : consistent st -> consistent (run inputs st).
Proof.
  revert st. induction inputs as [|i rest IH]; intros st Hcons; simpl.
  - exact Hcons.
  - apply IH, consistent_step, Hcons.
Qed.

Lemma consistent_started l e cb inputs : consistent (started l e cb inputs).
Proof.
  unfold started. change (consistent (run inputs (started l e cb []))).
  apply consistent_run, consistent_after_init.
Qed.

(** ** Requests persist *)

Lemma extends_refl st : extends st st.
Proof. intros p c Hc. exists c. split; [exact Hc|apply evolves_refl]. Qed.

Lemma extends_trans a b c : extends a b -> extends b c -> extends a c.
Proof.
  intros Hab Hbc p ca Hca.
  destruct (Hab p ca Hca) as (cb & Hcb & Hev1).
  destruct (Hbc p cb Hcb) as (cc & Hcc & Hev2).
  exists cc. split; [exact Hcc|]. eapply evolves_trans; eassumption.
Qed.

Lemma extends_same_closures st st' :
  closures st' = closures st -> extends st st'.
Proof. intros Heq p c Hc. rewrite Heq. exists c. eauto using evolves_refl. Qed.

Lemma extends_alter f p st :
  (forall c, evolves c (f c)) ->
  extends st (set_closures (alter f p (closures st)) st).
Proof.
  intros Hf q c Hc. fields.
  destruct (decide (p = q)) as [<-|Hne].
  - exists (f c). rewrite list_lookup_alter_eq, Hc. auto.
  - exists c. rewrite list_lookup_alter_ne by assumption.
    auto using evolves_refl.
Qed.

Lemma extends_push c st :
  extends st (set_closures (closures st ++ [c])%list st).
Proof.
  intros q c' Hc'. exists c'. fields.
  split; [apply lookup_app_l_Some, Hc'|apply evolves_refl].
Qed.

Ltac extends_rules :=
  first [ exact extends_refl | exact extends_trans | exact extends_alter
        | exact extends_push
        | intros; apply extends_same_closures; reflexivity ].

Lemma step_extends i st : extends st (step i st).
Proof.
  destruct i; simpl; unfold sendMessageOneWay.
  - apply (preserves_initMessaging extends); extends_rules.
  - apply (preserves_sendMessageRequest extends); extends_rules.
  - apply (preserves_sendMessageReply extends); extends_rules.
  - apply (preserves_sendMessageRequest extends); extends_rules.
  - apply (preserves_fire extends); extends_rules.
  - apply (preserves_emit extends); extends_rules.
Qed.

Lemma run_extends inputs st : extends st (run inputs st).
Proof.
  revert st. induction inputs as [|i rest IH]; intros st; simpl.
  - apply extends_refl.
  - eapply extends_trans; [apply step_extends|apply IH].
Qed.

(** ** Settled once *)

Lemma outcome_ok_length c : outcome_ok c -> (length (c_settled c) <= 1)%nat.
Proof.
  intros [->|[(v & -> & _)|(-> & _)]]; simpl; lia.
Qed.

(** A promise that is settled stays as it is. *)
Lemma settled_stable st st' p c :
  extends st st' -> consistent st' ->
  closures st !! p = Some c -> c_settled c <> [] ->
  exists c', closures st' !! p = Some c' /\ evolves c c' /\
             c_settled c' = c_settled c.
Proof.
  intros Hext Hcons Hc Hne.
  destruct (Hext p c Hc) as (c' & Hc' & Hev).
  exists c'. split; [exact Hc'|]. split; [exact Hev|].
  destruct Hev as (_ & _ & _ & _ & [k Hk]).
  pose proof (outcome_ok_length c' (cons_outcomes st' Hcons p c' Hc')) as Hlen.
  rewrite Hk in *. rewrite length_app in Hlen.
  destruct (c_settled c) as [|s1 l1]; [contradiction|].
  destruct k; [rewrite app_nil_r; reflexivity|]. simpl in Hlen. lia.
Qed.

(** C1: once initMessaging has run, whatever calls, replies and timer
    expiries follow and in whatever order, the promise of every request is
    settled at most once: nothing settles the promise of a one-way request,
    and the promise of a request that expects a reply is either not settled
    yet, or resolved once with a reply, or rejected once by its timer with
    "Timed out"; it is never both resolved and rejected. *)
Theorem settled_at_most_once (l : nat) (e : option nat) (cb : nat)
    (inputs : list input) (p : nat) (c : closure) :
  closures (started l e cb inputs) !! p = Some c ->
  (length (c_settled c) <= 1)%nat /\
  fulfilled c && failed c = false /\
  (c_oneWay c = true -> c_settled c = []) /\
  (c_oneWay c = false ->
   c_settled c = [] \/
   (exists reply, c_settled c = [Resolved reply]) \/
   (c_settled c = [Rejected (VStr "Timed out")] /\ c_infinite c = false)).
Proof.
  intros Hc.
  pose proof (cons_outcomes _ (consistent_started l e cb inputs) p c Hc)
    as Hout.
  split; [apply outcome_ok_length, Hout|].
  unfold fulfilled, failed.
  destruct Hout as [Hs|[(v & Hs & Hone)|(Hs & Hone & Hinf)]]; rewrite Hs.
  - repeat split; auto.
  - repeat split; [congruence|]. intros _. right. left. eauto.
  - repeat split; [congruence|]. intros _. right. right. auto.
Qed.

(** A request is made, a reply arrives, and the timer of the request is
    then tried: the promise is resolved, once. *)
Lemma settled_at_most_once_witness :
  let c :=
    {| c_id := "msg-1-1700"; c_action := "ping"; c_oneWay := false;
       c_infinite := false; c_timer := Some 1%nat;
       c_settled := [Resolved (VStr "pong")] |} in
  (length (c_settled c) <= 1)%nat /\
  fulfilled c && failed c = false /\
  (c_oneWay c = true -> c_settled c = []) /\
  (c_oneWay c = false ->
   c_settled c = [] \/
   (exists reply, c_settled c = [Resolved reply]) \/
   (c_settled c = [Rejected (VStr "Timed out")] /\ c_infinite c = false)).
Proof.
  apply (settled_at_most_once 7 None 3
           [Call_sendMessageRequest "ping" VNull (Some (Finite 50)) 1700;
            Incoming "msg-1-1700" None (VStr "pong");
            Timer 1%nat]
           0%nat).
  vm_compute. reflexivity.
Defined.

(** ** Timeouts *)

Lemma started_objects l e cb inputs :
  listenerObj (started l e cb inputs) = Some l /\
  emitterObj (started l e cb inputs) = Some (default l e).
Proof.
  assert (Hinit : same_objects (started l e cb []) (started l e cb inputs)).
  { unfold started at 2. change (same_objects (started l e cb [])
                                   (run inputs (started l e cb []))).
    assert (Hi : initialized (started l e cb []))
      by (unfold initialized; destruct e; reflexivity).
    revert Hi. generalize (started l e cb []). clear.
    induction inputs as [|i rest IH]; intros st Hi; simpl.
    - apply same_objects_refl.
    - eapply same_objects_trans.
      + apply step_same_objects. intros; exact Hi.
      + apply IH, initialized_step, Hi. }
  destruct Hinit as [-> ->]. destruct e; split; reflexivity.
Qed.

Lemma prefix_app x s : String.prefix x (x ++ s) = true.
Proof.
  induction x as [|a x IH].
  - destruct s; reflexivity.
  - change (String a x ++ s) with (String a (x ++ s)). cbn [String.prefix].
    destruct (Ascii.ascii_dec a a); [exact IH|contradiction].
Qed.

Lemma contains_prefix x s : String.prefix x s = true -> contains x s = true.
Proof. intros H. destruct s; cbn [contains]; rewrite H; reflexivity. Qed.

Lemma contains_app x a b : contains x (a ++ x ++ b) = true.
Proof.
  induction a as [|ch a IH].
  - change ("" ++ x ++ b) with (x ++ b). apply contains_prefix, prefix_app.
  - change (String ch a ++ x ++ b) with (String ch (a ++ x ++ b)).
    cbn [contains]. rewrite IH. apply orb_true_r.
Qed.

Lemma string_app_assoc (a b c : string) : (a ++ b) ++ c = a ++ b ++ c.
Proof.
  induction a as [|ch a IH]; [reflexivity|].
  change ((String ch a ++ b) ++ c) with (String ch ((a ++ b) ++ c)).
  rewrite IH. reflexivity.
Qed.

Lemma time_out_line_carries id action :
  contains id (time_out_line id action) = true /\
  contains action (time_out_line id action) = true.
Proof.
  unfold time_out_line. split.
  - apply (contains_app id "[" ("] '" ++ action ++ "' Time out")).
  - rewrite <- (string_app_assoc id "] '"), <- (string_app_assoc "[").
    apply contains_app.
Qed.

(** C2, as stated, fails.  [sendMessageRequest("ping", {n: 1}, 50)] gets no
    reply and its timer fires: the promise is rejected with the string
    "Timed out", in which neither the action "ping" nor the identifier of
    the request occurs. *)
Lemma timeout_rejection_omits_action_and_id :
  let st :=
    started 7 None 3
      [Call_sendMessageRequest "ping" (VObj [("n", VNum (Finite 1))])
         (Some (Finite 50)) 1700;
       Timer 1%nat] in
  exists c reason,
    closures st !! 0%nat = Some c /\
    c_action c = "ping" /\ c_id c = "msg-1-1700" /\
    c_settled c = [Rejected reason] /\
    carries "ping" reason = false /\ carries "msg-1-1700" reason = false.
Proof.
  eexists. eexists. vm_compute. repeat split; reflexivity.
Qed.

(** C2, amended: when the timer of a request fires, the promise, not settled
    until then, is rejected with the constant string "Timed out", whatever
    the action and the identifier; the two are given to console.warn only,
    in the line [[id] 'action' Time out], after the listeners of the
    identifier have been removed. *)
Theorem timeout_rejects_with_constant (l : nat) (e : option nat) (cb : nat)
    (inputs : list input) (h p : nat) :
  timers (started l e cb inputs) !! h = Some p ->
  exists c c',
    closures (started l e cb inputs) !! p = Some c /\
    closures (step (Timer h) (started l e cb inputs)) !! p = Some c' /\
    c_settled c = [] /\
    c_settled c' = [Rejected (VStr "Timed out")] /\
    trace (step (Timer h) (started l e cb inputs)) =
      (trace (started l e cb inputs) ++
       [ERemoveAllListeners l (c_id c);
        EWarn (TimeOut (c_id c) (c_action c))])%list /\
    contains (c_id c) (time_out_line (c_id c) (c_action c)) = true /\
    contains (c_action c) (time_out_line (c_id c) (c_action c)) = true.
Proof.
  intros Hh.
  pose proof (consistent_started l e cb inputs) as Hcons.
  destruct (started_objects l e cb inputs) as [Hl _].
  destruct (cons_timers _ Hcons h p Hh) as (_ & c & Hc & _ & Hset & _).
  exists c. eexists. split; [exact Hc|].
  unfold step. rewrite (fire_armed h p c l) by assumption. fields.
  split.
  { rewrite list_lookup_alter_eq, list_lookup_alter_eq, Hc. reflexivity. }
  fields. rewrite Hset.
  repeat split; try reflexivity; apply time_out_line_carries.
Qed.

Lemma timeout_rejects_with_constant_witness :
  exists c c',
    closures (started 7 None 3
      [Call_sendMessageRequest "ping" (VObj [("n", VNum (Finite 1))])
         (Some (Finite 50)) 1700]) !! 0%nat = Some c /\
    closures (step (Timer 1%nat) (started 7 None 3
      [Call_sendMessageRequest "ping" (VObj [("n", VNum (Finite 1))])
         (Some (Finite 50)) 1700])) !! 0%nat = Some c' /\
    c_settled c = [] /\
    c_settled c' = [Rejected (VStr "Timed out")] /\
    trace (step (Timer 1%nat) (started 7 None 3
      [Call_sendMessageRequest "ping" (VObj [("n", VNum (Finite 1))])
         (Some (Finite 50)) 1700])) =
      (trace (started 7 None 3
         [Call_sendMessageRequest "ping" (VObj [("n", VNum (Finite 1))])
            (Some (Finite 50)) 1700]) ++
       [ERemoveAllListeners 7 (c_id c);
        EWarn (TimeOut (c_id c) (c_action c))])%list /\
    contains (c_id c) (time_out_line (c_id c) (c_action c)) = true /\
    contains (c_action c) (time_out_line (c_id c) (c_action c)) = true.
Proof.
  apply (timeout_rejects_with_constant 7 None 3
           [Call_sendMessageRequest "ping" (VObj [("n", VNum (Finite 1))])
              (Some (Finite 50)) 1700]
           1%nat 0%nat).
  vm_compute. reflexivity.
Defined.

(** ** Replies after the timeout *)




(** ** Identifiers *)

Lemma string_of_uint_no_dash d : no_dash (NilEmpty.string_of_uint d) = true.
Proof. induction d; simpl; auto. Qed.

Lemma decimal_no_dash s : 0 <= s -> no_dash (decimal s) = true.
Proof.
  intros Hs. unfold decimal. destruct s as [|p|p]; [reflexivity| |lia].
  simpl. unfold NilZero.string_of_uint.
  destruct (Pos.to_uint p); first [reflexivity | apply string_of_uint_no_dash].
Qed.

Lemma decimal_inj s s' : decimal s = decimal s' -> s = s'.
Proof.
  unfold decimal. intros Heq.
  assert (Hnorm : forall z, Z.to_int z <> Decimal.Pos Decimal.Nil /\
                            Z.to_int z <> Decimal.Neg Decimal.Nil).
  { intros [|p|p]; simpl; split; try discriminate;
      intros [= H]; exact (DecimalPos.Unsigned.to_uint_nonnil p H). }
  apply DecimalZ.to_int_inj.
  assert (Some (Z.to_int s) = Some (Z.to_int s')) as [= H]; [|exact H].
  rewrite <- (NilZero.isi (Z.to_int s)), <- (NilZero.isi (Z.to_int s'));
    try apply Hnorm.
  rewrite Heq. reflexivity.
Qed.

(** Two strings that reach their first dash at different places differ. *)
Lemma dash_split a b x y :
  no_dash a = true -> no_dash b = true ->
  a ++ String "-" x = b ++ String "-" y -> a = b.
Proof.
  revert b. induction a as [|ch a IH]; intros [|ch' b] Ha Hb Heq.
  - reflexivity.
  - change ("" ++ String "-" x) with (String "-" x) in Heq.
    change (String ch' b ++ String "-" y)
      with (String ch' (b ++ String "-" y)) in Heq.
    injection Heq as <- _. discriminate.
  - change ("" ++ String "-" y) with (String "-" y) in Heq.
    change (String ch a ++ String "-" x)
      with (String ch (a ++ String "-" x)) in Heq.
    injection Heq as -> _. discriminate.
  - change (String ch a ++ String "-" x)
      with (String ch (a ++ String "-" x)) in Heq.
    change (String ch' b ++ String "-" y)
      with (String ch' (b ++ String "-" y)) in Heq.
    injection Heq as -> Heq. simpl in Ha, Hb.
    apply andb_true_iff in Ha as [_ Ha]. apply andb_true_iff in Hb as [_ Hb].
    f_equal. apply IH; assumption.
Qed.

(** The counter can be read back from an identifier. *)
Lemma message_id_inj s now s' now' :
  0 <= s -> 0 <= s' -> message_id s now = message_id s' now' -> s = s'.
Proof.
  intros Hs Hs' Heq. unfold message_id in Heq.
  change ("msg-" ++ decimal s ++ "-" ++ decimal now)
    with (String "m" (String "s" (String "g" (String "-"
            (decimal s ++ String "-" (decimal now)))))) in Heq.
  change ("msg-" ++ decimal s' ++ "-" ++ decimal now')
    with (String "m" (String "s" (String "g" (String "-"
            (decimal s' ++ String "-" (decimal now')))))) in Heq.
  injection Heq as Heq.
  apply decimal_inj. eapply dash_split; [| |exact Heq];
    apply decimal_no_dash; assumption.
Qed.

Lemma message_id_not_request s now : message_id s now <> "message-request".
Proof.
  unfold message_id.
  change ("msg-" ++ decimal s ++ "-" ++ decimal now)
    with (String "m" (String "s" ("g-" ++ decimal s ++ "-" ++ decimal now))).
  discriminate.
Qed.

Lemma same_identifiers_refl st : same_identifiers st st.
Proof. split; reflexivity. Qed.

Lemma same_identifiers_trans a b c :
  same_identifiers a b -> same_identifiers b c -> same_identifiers a c.
Proof. intros [? ?] [? ?]. split; congruence. Qed.

Lemma same_identifiers_alter f p st :
  (forall c, evolves c (f c)) ->
  same_identifiers st (set_closures (alter f p (closures st)) st).
Proof.
  intros Hf. split; [reflexivity|]. unfold identifiers. fields.
  apply list_eq. intros q. rewrite !list_lookup_fmap.
  destruct (decide (p = q)) as [<-|Hne].
  - rewrite list_lookup_alter_eq.
    destruct (closures st !! p) as [c|]; [|reflexivity].
    simpl. f_equal. apply Hf.
  - rewrite list_lookup_alter_ne by assumption. reflexivity.
Qed.

Ltac same_identifiers_rules :=
  first [ exact same_identifiers_refl | exact same_identifiers_trans
        | exact same_identifiers_alter
        | intros; split; reflexivity ].

Lemma sendMessageRequest_identifiers a d t now st :
  seed (snd (sendMessageRequest a d t now st)) = incr (seed st) /\
  identifiers (snd (sendMessageRequest a d t now st)) =
  (identifiers st ++ [message_id (seed st) now])%list.
Proof.
  unfold sendMessageRequest, post_increment_seed, new_Promise, bind, gets,
    modify, ret. cbn [fst snd].
  match goal with
  | |- context [executor ?id ?a ?d ?o ?i ?t' ?p ?st1] =>
      pose proof (preserves_executor same_identifiers
                    same_identifiers_refl same_identifiers_trans
                    ltac:(same_identifiers_rules)
                    ltac:(same_identifiers_rules)
                    ltac:(same_identifiers_rules)
                    ltac:(same_identifiers_rules)
                    id a d o i t' p st1) as [Hseed Hids];
      destruct (executor id a d o i t' p st1) as [[[]|err] st2]
  end; cbn [fst snd] in *.
  - rewrite Hseed, Hids. unfold identifiers. fields.
    rewrite fmap_app. split; reflexivity.
  - destruct (preserves_settle same_identifiers
                ltac:(same_identifiers_rules)
                (length (closures (set_seed (incr (seed st)) st)))
                (Thrown err) st2) as [Hseed' Hids'].
    rewrite Hseed', Hids', Hseed, Hids. unfold identifiers. fields.
    rewrite fmap_app. split; reflexivity.
Qed.

Lemma step_identifiers i st :
  seed (step i st) = seed_after i (seed st) /\
  identifiers (step i st) = (identifiers st ++ generated i st)%list.
Proof.
  destruct i; cbn [step seed_after generated]; unfold sendMessageOneWay;
    try apply sendMessageRequest_identifiers; rewrite app_nil_r.
  - apply (preserves_initMessaging same_identifiers);
      same_identifiers_rules.
  - apply (preserves_sendMessageReply same_identifiers);
      same_identifiers_rules.
  - apply (preserves_fire same_identifiers); same_identifiers_rules.
  - apply (preserves_emit same_identifiers); same_identifiers_rules.
Qed.

Lemma seed_limit_pos : 1 < seed_limit.
Proof. reflexivity. Qed.

Lemma incr_seed_of n : incr (seed_of n) = seed_of (S n).
Proof.
  pose proof seed_limit_pos. unfold incr, seed_of.
  destruct (Z.ltb_spec (Z.min (1 + Z.of_nat n) seed_limit) seed_limit); lia.
Qed.

Lemma numbered_initial : numbered initial_state.
Proof.
  split.
  - reflexivity.
  - intros p id H. discriminate.
Qed.

Lemma numbered_step i st : numbered st -> numbered (step i st).
Proof.
  intros [Hseed Hids].
  destruct (step_identifiers i st) as [Hs Hi].
  split; rewrite Hi, ?Hs.
  - rewrite length_app, Hseed.
    destruct i; cbn [seed_after generated length];
      rewrite ?Nat.add_0_r, ?Nat.add_1_r; try reflexivity;
      apply incr_seed_of.
  - intros p id Hp. apply lookup_app_Some in Hp as [Hp|[Hge Hp]]; [eauto|].
    destruct i; cbn [generated] in Hp;
      try (rewrite lookup_nil in Hp; discriminate);
      apply list_lookup_singleton_Some in Hp as [Hp <-];
      exists now; rewrite Hseed; f_equal; f_equal; lia.
Qed.

Lemma numbered_run inputs st : numbered st -> numbered (run inputs st).
Proof.
  revert st. induction inputs as [|i rest IH]; intros st Hn; simpl.
  - exact Hn.
  - apply IH, numbered_step, Hn.
Qed.

(** C5, amended: in any run of the module, two requests are given different
    identifiers, whatever the clock returned at the two calls, provided the
    earlier of the two is among the first [2^53 - 1] requests: the counter
    is then still below [2^53] and is read back from the identifier. *)
Theorem identifiers_distinct (inputs : list input) (p q : nat)
    (cp cq : closure) :
  closures (run inputs initial_state) !! p = Some cp ->
  closures (run inputs initial_state) !! q = Some cq ->
  (p < q)%nat ->
  1 + Z.of_nat p < seed_limit ->
  c_id cp <> c_id cq.
Proof.
  intros Hp Hq Hlt Hlim Heq.
  destruct (numbered_run inputs initial_state numbered_initial) as [_ Hids].
  destruct (Hids p (c_id cp)) as [now Hidp].
  { unfold identifiers. rewrite list_lookup_fmap, Hp. reflexivity. }
  destruct (Hids q (c_id cq)) as [now' Hidq].
  { unfold identifiers. rewrite list_lookup_fmap, Hq. reflexivity. }
  rewrite Hidp, Hidq in Heq.
  apply message_id_inj in Heq; unfold seed_of in *; lia.
Qed.

Lemma identifiers_distinct_witness :
  "msg-1-1700" <> "msg-2-1700".
Proof.
  apply (identifiers_distinct
           [Call_sendMessageRequest "ping" VNull None 1700;
            Call_sendMessageOneWay "pong" VNull 1700]
           0%nat 1%nat
           {| c_id := "msg-1-1700"; c_action := "ping"; c_oneWay := false;
              c_infinite := false; c_timer := Some 1%nat;
              c_settled := [Thrown TypeError] |}
           {| c_id := "msg-2-1700"; c_action := "pong"; c_oneWay := true;
              c_infinite := false; c_timer := None;
              c_settled := [Thrown TypeError] |}).
  - vm_compute. reflexivity.
  - vm_compute. reflexivity.
  - lia.
  - reflexivity.
Defined.

Lemma run_app inputs more st : run (inputs ++ more) st = run more (run inputs st).
Proof. apply fold_left_app. Qed.

(** A burst of [n] requests adds [n] identifiers. *)
Lemma identifiers_burst i n st :
  (forall st', generated i st' <> []) ->
  length (identifiers (run (repeat i n) st)) =
  (length (identifiers st) + n)%nat.
Proof.
  intros Hgen. revert st. induction n as [|n IH]; intros st.
  - cbn [repeat run fold_left]. lia.
  - cbn [repeat run fold_left]. fold (run (repeat i n) (step i st)).
    rewrite IH. destruct (step_identifiers i st) as [_ ->].
    rewrite length_app. specialize (Hgen st).
    destruct i; cbn [generated] in *; try contradiction; simpl; lia.
Qed.

(** Two requests made at the same tick of the clock once the counter has
    reached its limit. *)
Lemma identifiers_equal_at_limit (n : nat) (i : input) now a d t a' d' t' :
  (forall st, generated i st <> []) ->
  Z.of_nat n = seed_limit - 1 ->
  let st :=
    run (repeat i n ++
         [Call_sendMessageRequest a d t now;
          Call_sendMessageRequest a' d' t' now])%list initial_state in
  exists cp cq,
    closures st !! n = Some cp /\ closures st !! S n = Some cq /\
    c_id cp = c_id cq.
Proof.
  intros Hgen Hn st.
  set (st0 := run (repeat i n) initial_state).
  assert (Hlen : length (identifiers st0) = n)
    by (unfold st0; rewrite identifiers_burst by exact Hgen; reflexivity).
  pose proof (num_seed st0 (numbered_run _ _ numbered_initial)) as Hseed.
  rewrite Hlen in Hseed.
  assert (Hlim : seed st0 = seed_limit) by (unfold seed_of in Hseed; lia).
  set (st1 := step (Call_sendMessageRequest a d t now) st0).
  set (st2 := step (Call_sendMessageRequest a' d' t' now) st1).
  assert (Hst : st = st2) by (unfold st; rewrite run_app; reflexivity).
  destruct (step_identifiers (Call_sendMessageRequest a d t now) st0)
    as [Hs1 Hi1].
  destruct (step_identifiers (Call_sendMessageRequest a' d' t' now) st1)
    as [_ Hi2].
  fold st1 in Hs1, Hi1. fold st2 in Hi2.
  cbn [generated seed_after] in *.
  assert (Hs1' : seed st1 = seed_limit).
  { rewrite Hs1, Hlim. unfold incr. rewrite Z.ltb_irrefl. reflexivity. }
  rewrite Hi1, Hs1', Hlim in Hi2.
  assert (Hp : identifiers st2 !! n = Some (message_id seed_limit now)).
  { rewrite Hi2, <- app_assoc. rewrite lookup_app_r by lia.
    rewrite Hlen, Nat.sub_diag. reflexivity. }
  assert (Hq : identifiers st2 !! S n = Some (message_id seed_limit now)).
  { rewrite Hi2, <- app_assoc. rewrite lookup_app_r by lia.
    rewrite Hlen. replace (S n - n)%nat with 1%nat by lia. reflexivity. }
  unfold identifiers in Hp, Hq. rewrite list_lookup_fmap in Hp, Hq.
  rewrite Hst.
  destruct (closures st2 !! n) as [cp|]; [|discriminate].
  destruct (closures st2 !! S n) as [cq|]; [|discriminate].
  exists cp, cq. injection Hp as Hp. injection Hq as Hq.
  repeat split; congruence.
Qed.

(** C5, as stated, fails.  The counter is a number: at [2^53] the increment
    rounds back to [2^53].  After [2^53 - 1] messages the next two requests,
    made at the same tick of the clock, get the same identifier. *)
Lemma identifiers_repeat_at_limit :
  let st :=
    run (repeat (Call_sendMessageOneWay "tick" VNull 0)
           (Z.to_nat (seed_limit - 1)) ++
         [Call_sendMessageRequest "ping" VNull None 0;
          Call_sendMessageRequest "ping" VNull None 0])%list initial_state in
  exists cp cq,
    closures st !! Z.to_nat (seed_limit - 1) = Some cp /\
    closures st !! S (Z.to_nat (seed_limit - 1)) = Some cq /\
    c_id cp = c_id cq.
Proof.
  apply identifiers_equal_at_limit.
  - intros st. discriminate.
  - apply Z2Nat.id. apply Z.leb_le. reflexivity.
Qed.

(** ** Replies *)

(** C9: when the inbound event handle exists and has a [reply] method,
    sendMessageReply calls that method with the identifier and the data and
    does nothing else: the emitter is not used.  Otherwise it calls [send]
    on the emitter, with the identifier as the channel; before
    initialization there is no emitter and that call throws.  The function
    returns at once, with no value. *)
Theorem sendMessageReply_routes (st : state) (messageId : string)
    (data : jsval) (ev : option event) :
  (forall handle f,
     ev = Some handle -> ev_reply handle = Some f ->
     sendMessageReply messageId data ev st =
     (Ok tt, log (EEventReply handle messageId data) st)) /\
  (forall emitter,
     event_reply ev = None -> emitterObj st = Some emitter ->
     sendMessageReply messageId data ev st =
     (Ok tt, log (ESend emitter messageId data) st)) /\
  (event_reply ev = None -> emitterObj st = None ->
   sendMessageReply messageId data ev st = (Raise TypeError, st)).
Proof.
  unfold sendMessageReply, emitter_send, bind, gets, modify.
  split; [|split].
  - intros handle f -> Hf. cbn [event_reply]. rewrite Hf. reflexivity.
  - intros emitter Hnone He.
    destruct ev as [handle|]; cbn [event_reply] in *; rewrite ?Hnone;
      cbn [fst snd]; rewrite He; reflexivity.
  - intros Hnone He.
    destruct ev as [handle|]; cbn [event_reply] in *; rewrite ?Hnone;
      cbn [fst snd]; rewrite He; reflexivity.
Qed.

Lemma on_reply_closures p c r st :
  closures st !! p = Some c -> awaiting st p c ->
  fst (on_reply p c r st) = Ok tt /\
  closures (snd (on_reply p c r st)) =
  alter (with_settlement (Resolved r)) p (closures st).
Proof.
  intros Hc Haw. rewrite on_reply_awaiting by assumption.
  destruct (c_timer c); split; reflexivity.
Qed.

Lemma unsubscribed_closures s st :
  closures (unsubscribed s st) = closures st.
Proof. unfold unsubscribed. destruct (s_once s); reflexivity. Qed.

(** The turn of the function of request [p]. *)
Lemma turn_reply s p ev v st :
  consistent st -> s ∈ listeners st -> s_handler s = OnReply p ->
  fst (call_handler (s_handler s) ev v (unsubscribed s st)) = Ok tt /\
  closures (snd (call_handler (s_handler s) ev v (unsubscribed s st))) =
  alter (with_settlement (Resolved v)) p (closures st).
Proof.
  intros Hcons Hin Hh.
  destruct (cons_replies st Hcons s p Hin Hh) as (c & Hc & Hseq & Haw).
  assert (Hc1 : closures (unsubscribed s st) !! p = Some c)
    by (rewrite unsubscribed_closures; exact Hc).
  assert (Haw1 : awaiting (unsubscribed s st) p c)
    by (unfold unsubscribed; destruct (s_once s); exact Haw).
  rewrite Hh, (call_handler_reply p c) by exact Hc1.
  rewrite <- (unsubscribed_closures s st).
  apply on_reply_closures; assumption.
Qed.

(** A round of calls to functions of requests, all subscribed, each once:
    every one of them is called and resolves its promise with the payload;
    the other promises are left as they are. *)
Lemma dispatch_replies subs ev v st :
  consistent st ->
  (forall s, s ∈ subs -> s ∈ listeners st) ->
  NoDup (s_handler <$> subs) ->
  (forall s, s ∈ subs -> exists p, s_handler s = OnReply p) ->
  fst (dispatch subs ev v st) = Ok tt /\
  forall q c, closures st !! q = Some c ->
    exists c',
      closures (snd (dispatch subs ev v st)) !! q = Some c' /\
      c_settled c' =
        if decide (OnReply q ∈ s_handler <$> subs)
        then (c_settled c ++ [Resolved v])%list
        else c_settled c.
Proof.
  revert st. induction subs as [|s rest IH]; intros st Hcons Hsub Hnd Hrep.
  - split; [reflexivity|]. intros q c Hc. exists c. split; [exact Hc|].
    rewrite decide_False; [reflexivity|]. apply not_elem_of_nil.
  - rewrite fmap_cons in Hnd. apply NoDup_cons in Hnd as [Hs Hnd].
    assert (Hin : s ∈ listeners st) by (apply Hsub; left).
    destruct (Hrep s) as [p Hp]; [left|].
    destruct (consistent_turn s ev v st Hcons Hin) as [Hcons' Hkeep].
    destruct (turn_reply s p ev v st Hcons Hin Hp) as [Hok Hcl].
    rewrite dispatch_cons.
    destruct (call_handler (s_handler s) ev v (unsubscribed s st))
      as [[[]|err] st']; cbn [fst snd] in *; [|discriminate].
    destruct (IH st' Hcons') as [Hok' Hall]; [|exact Hnd| |].
    { intros s' Hs'. apply Hkeep; [apply Hsub; right; exact Hs'|].
      intros ->. apply Hs, list_elem_of_fmap. eauto. }
    { intros s' Hs'. apply Hrep. right. exact Hs'. }
    split; [exact Hok'|]. intros q c Hc.
    rewrite fmap_cons, Hp.
    destruct (decide (p = q)) as [<-|Hne].
    + destruct (Hall p (with_settlement (Resolved v) c)) as (c' & Hc' & Hs').
      { rewrite Hcl, list_lookup_alter_eq, Hc. reflexivity. }
      exists c'. split; [exact Hc'|]. rewrite Hs'.
      rewrite Hp in Hs. rewrite decide_False by exact Hs.
      rewrite decide_True by left. reflexivity.
    + destruct (Hall q c) as (c' & Hc' & Hs').
      { rewrite Hcl, list_lookup_alter_ne by assumption. exact Hc. }
      exists c'. split; [exact Hc'|]. rewrite Hs'.
      destruct (decide (OnReply q ∈ s_handler <$> rest)) as [Hq|Hq].
      * rewrite decide_True by (right; exact Hq). reflexivity.
      * rewrite decide_False; [reflexivity|].
        intros Hq'. apply elem_of_cons in Hq' as [[= Heq]|Hq']; auto.
Qed.

(** A round of calls to functions of initMessaging touches no request. *)
Lemma dispatch_requests subs ev v st :
  (forall s, s ∈ subs -> exists cb, s_handler s = OnRequest cb) ->
  closures (snd (dispatch subs ev v st)) = closures st.
Proof.
  revert st. induction subs as [|s rest IH]; intros st Hreq; [reflexivity|].
  rewrite dispatch_cons. destruct (Hreq s) as [cb Hcb]; [left|].
  rewrite Hcb. cbn [call_handler].
  assert (Hcl : closures (snd (on_request cb ev v (unsubscribed s st))) =
                closures st).
  { rewrite <- (unsubscribed_closures s st). unfold on_request.
    destruct (get_prop v "action"), (get_prop v "data"), (get_prop v "id");
      reflexivity. }
  destruct (on_request cb ev v (unsubscribed s st)) as [[[]|err] st'];
    cbn [snd] in *; [|exact Hcl].
  rewrite IH; [exact Hcl|]. intros s' Hs'. apply Hreq. right. exact Hs'.
Qed.

(** ** The readings of [timeout] *)

Lemma zero_oneWay q : (q == 0)%Q -> oneWay_of (Some (Finite q)) = true.
Proof. intros Hq. apply Qeq_bool_iff, Hq. Qed.

Lemma Qeq_bool_nonzero q : ~ (q == 0)%Q -> Qeq_bool q 0 = false.
Proof.
  intros Hq. destruct (Qeq_bool q 0) eqn:Heq; [|reflexivity].
  apply Qeq_bool_iff in Heq. contradiction.
Qed.

Lemma negative_infinite n :
  negative n ->
  oneWay_of (Some n) = false /\ infinite_of (Some n) = true.
Proof.
  unfold oneWay_of, infinite_of.
  destruct n as [|sign|q];
    cbn [negative strict_eq_zero timeout_truthy number_truthy lt_zero].
  - intros [].
  - intros ->. split; reflexivity.
  - intros Hq. rewrite Qeq_bool_nonzero by (apply Qlt_not_eq, Hq).
    assert (Hc : (q ?= 0)%Q = Lt) by (apply Qlt_alt, Hq).
    rewrite Hc. split; reflexivity.
Qed.

Lemma positive_finite n :
  positive n ->
  oneWay_of (Some n) = false /\ infinite_of (Some n) = false /\
  delay_of (Some n) = Some n.
Proof.
  unfold delay_of, oneWay_of, infinite_of.
  destruct n as [|sign|q];
    cbn [positive strict_eq_zero timeout_truthy number_truthy lt_zero].
  - intros [].
  - intros ->. repeat split; reflexivity.
  - intros Hq.
    rewrite Qeq_bool_nonzero by (apply Qnot_eq_sym, Qlt_not_eq, Hq).
    assert (Hc : (q ?= 0)%Q = Gt) by (apply Qgt_alt, Hq).
    rewrite Hc. repeat split; reflexivity.
Qed.

Lemma absent_default t :
  t = None \/ t = Some NaN ->
  oneWay_of t = false /\ infinite_of t = false /\
  delay_of t = Some (Finite 2000).
Proof. intros [->| ->]; repeat split; reflexivity. Qed.

(** ** Operational states *)

Lemma operational_started l e cb inputs : operational (started l e cb inputs).
Proof.
  split; [apply consistent_started|].
  apply numbered_run, numbered_initial.
Qed.

Lemma operational_step i st : operational st -> operational (step i st).
Proof.
  intros [Hc Hn]. split; [apply consistent_step, Hc|apply numbered_step, Hn].
Qed.

Lemma operational_run inputs st : operational st -> operational (run inputs st).
Proof.
  intros [Hc Hn]. split; [apply consistent_run, Hc|apply numbered_run, Hn].
Qed.

Lemma operational_id st p c :
  operational st -> closures st !! p = Some c -> c_id c <> "message-request".
Proof.
  intros [_ Hn] Hc. destruct (num_ids st Hn p (c_id c)) as [now ->].
  - unfold identifiers. rewrite list_lookup_fmap, Hc. reflexivity.
  - apply message_id_not_request.
Qed.

(** An event on a channel other than the one of requests resolves the
    requests subscribed to the channel, and those only. *)
Lemma emit_reply_channel st ch ev v :
  operational st -> ch <> "message-request" ->
  fst (emit ch ev v st) = Ok tt /\
  forall q c, closures st !! q = Some c ->
    exists c',
      closures (snd (emit ch ev v st)) !! q = Some c' /\
      c_settled c' =
        if decide (Subscription ch true (OnReply q) ∈ listeners st)
        then (c_settled c ++ [Resolved v])%list
        else c_settled c.
Proof.
  intros [Hcons Hnum] Hch. unfold emit, bind, gets. cbn [fst snd].
  set (subs := filter (fun s => s_channel s = ch) (listeners st)).
  destruct (dispatch_replies subs ev v st Hcons) as [Hok Hall].
  - intros s Hs. apply list_elem_of_filter in Hs as [_ Hs]. exact Hs.
  - apply NoDup_handlers_filter, (cons_nodup st Hcons).
  - intros s Hs. apply list_elem_of_filter in Hs as [Hsch Hs].
    destruct (s_handler s) as [cb|p] eqn:Hh; [|eauto].
    rewrite (cons_requests st Hcons s cb Hs Hh) in Hsch. congruence.
  - split; [exact Hok|]. intros q c Hc.
    destruct (Hall q c Hc) as (c' & Hc' & Hs'). exists c'.
    split; [exact Hc'|]. rewrite Hs'.
    destruct (decide (Subscription ch true (OnReply q) ∈ listeners st))
      as [Hin|Hin].
    + rewrite decide_True; [reflexivity|].
      apply list_elem_of_fmap. exists (Subscription ch true (OnReply q)).
      split; [reflexivity|]. apply list_elem_of_filter. auto.
    + rewrite decide_False; [reflexivity|]. intros Hq. apply Hin.
      apply list_elem_of_fmap in Hq as (s & Hh & Hs).
      apply list_elem_of_filter in Hs as [Hsch Hs].
      destruct (cons_replies st Hcons s q Hs (eq_sym Hh))
        as (c0 & _ & Hseq & _).
      rewrite Hseq in Hs, Hsch. cbn [s_channel] in Hsch.
      rewrite Hsch in Hs. exact Hs.
Qed.

(** An event on the channel of requests settles nothing. *)
Lemma emit_request_channel st ev v :
  operational st ->
  closures (snd (emit "message-request" ev v st)) = closures st.
Proof.
  intros Hop. unfold emit, bind, gets. cbn [fst snd].
  apply dispatch_requests. intros s Hs.
  apply list_elem_of_filter in Hs as [Hsch Hs].
  destruct (s_handler s) as [cb|p] eqn:Hh; [eauto|].
  destruct (cons_replies st (proj1 Hop) s p Hs Hh) as (c & Hc & Hseq & _).
  rewrite Hseq in Hsch. cbn [s_channel] in Hsch.
  destruct (operational_id st p c Hop Hc Hsch).
Qed.

(** The request a call creates. *)
Lemma sendMessageRequest_closures a d t now st :
  consistent st ->
  fst (sendMessageRequest a d t now st) = Ok (length (closures st)) /\
  closures (snd (sendMessageRequest a d t now st)) =
  (closures st ++
   [Closure (message_id (seed st) now) a (oneWay_of t) (infinite_of t)
      (if oneWay_of t || infinite_of t then None else Some (next_timer st))
      []])%list.
Proof.
  intros Hcons. destruct (cons_objects st Hcons) as (l & e & Hl & He).
  destruct (oneWay_of t) eqn:Hone; [|destruct (infinite_of t) eqn:Hinf].
  - rewrite (sendMessageRequest_oneWay a d t now st l e) by assumption.
    rewrite (oneWay_not_infinite t Hone). split; reflexivity.
  - rewrite (sendMessageRequest_infinite a d t now st l e) by assumption.
    split; reflexivity.
  - rewrite (sendMessageRequest_finite a d t now st l e) by assumption.
    split; reflexivity.
Qed.

Lemma sendMessageReply_closures m d ev st :
  closures (snd (sendMessageReply m d ev st)) = closures st.
Proof.
  apply (preserves_sendMessageReply (fun s s' => closures s' = closures s));
    [reflexivity|congruence|reflexivity].
Qed.

(** What settles a promise: a reply on the channel named after the
    identifier of its request, which resolves it with the reply, or the
    timer of the request, which rejects it with "Timed out". *)
Lemma settled_by st i p c c' :
  operational st ->
  closures st !! p = Some c -> c_settled c = [] ->
  closures (step i st) !! p = Some c' -> c_settled c' <> [] ->
  (exists ev v, i = Incoming (c_id c) ev v /\ c_settled c' = [Resolved v]) \/
  (exists h, i = Timer h /\ timers st !! h = Some p /\
             c_settled c' = [Rejected (VStr "Timed out")]).
Proof.
  intros Hop Hc Hset Hc' Hne. pose proof (proj1 Hop) as Hcons.
  assert (Hsame : closures (step i st) !! p = Some c -> False).
  { intros H. rewrite H in Hc'. injection Hc' as <-. contradiction. }
  destruct i as [l e cb|a d now|m d ev|a d t now|h|ch ev v];
    cbn [step] in *.
  - exfalso. apply Hsame. rewrite initMessaging_initialized; [exact Hc|].
    destruct (cons_objects st Hcons) as (l' & e' & _ & He).
    unfold initialized. rewrite He. reflexivity.
  - exfalso. apply Hsame. unfold sendMessageOneWay.
    destruct (sendMessageRequest_closures a d (Some (Finite 0)) now st Hcons)
      as [_ ->].
    apply lookup_app_l_Some, Hc.
  - exfalso. apply Hsame.
    rewrite sendMessageReply_closures. exact Hc.
  - exfalso. apply Hsame.
    destruct (sendMessageRequest_closures a d t now st Hcons) as [_ ->].
    apply lookup_app_l_Some, Hc.
  - destruct (timers st !! h) as [p'|] eqn:Hh;
      [|exfalso; apply Hsame; rewrite fire_idle by assumption; exact Hc].
    destruct (cons_objects st Hcons) as (l' & e' & Hl & _).
    destruct (cons_timers st Hcons h p' Hh) as (_ & c0 & Hc0 & _).
    rewrite (fire_armed h p' c0 l') in Hc', Hsame by assumption.
    cbn [snd closures] in Hc', Hsame.
    destruct (decide (p' = p)) as [->|Hp].
    + right. exists h. split; [reflexivity|]. split; [exact Hh|].
      rewrite list_lookup_alter_eq, list_lookup_alter_eq, Hc in Hc'.
      injection Hc' as <-. fields. rewrite Hset. reflexivity.
    + exfalso. apply Hsame.
      rewrite !list_lookup_alter_ne by assumption. exact Hc.
  - destruct (decide (ch = "message-request")) as [->|Hch].
    + exfalso. apply Hsame. rewrite emit_request_channel by assumption.
      exact Hc.
    + destruct (emit_reply_channel st ch ev v Hop Hch) as [_ Hall].
      destruct (Hall p c Hc) as (c1 & Hc1 & Hs1).
      rewrite Hc1 in Hc'. injection Hc' as ->. rewrite Hset in Hs1.
      destruct (decide (Subscription ch true (OnReply p) ∈ listeners st))
        as [Hin|Hin]; [|contradiction].
      destruct (cons_replies st Hcons _ p Hin eq_refl) as (c0 & Hc0 & Hseq & _).
      assert (c0 = c) by congruence. subst c0.
      injection Hseq as ->. left. eauto.
Qed.

(** ** Requests that expect no reply, or wait for it forever *)

Lemma oneWay_never_settled st p c more :
  operational st -> closures st !! p = Some c -> c_oneWay c = true ->
  exists c',
    closures (run more st) !! p = Some c' /\ c_oneWay c' = true /\
    c_settled c' = [].
Proof.
  intros Hop Hc Hone.
  destruct (run_extends more st p c Hc) as (c' & Hc' & _ & _ & Hone' & _).
  exists c'. split; [exact Hc'|]. rewrite Hone', Hone. split; [reflexivity|].
  destruct (cons_outcomes _ (proj1 (operational_run more st Hop)) p c' Hc')
    as [Hs|[(v & _ & Hw)|(_ & Hw & _)]]; [exact Hs|congruence..].
Qed.

Lemma infinite_never_expires st p c more :
  operational st -> closures st !! p = Some c -> c_infinite c = true ->
  (forall h, timers (run more st) !! h <> Some p) /\
  exists c',
    closures (run more st) !! p = Some c' /\ c_id c' = c_id c /\
    (c_settled c' = [] \/ exists reply, c_settled c' = [Resolved reply]).
Proof.
  intros Hop Hc Hinf.
  destruct (run_extends more st p c Hc)
    as (c' & Hc' & Hid & _ & _ & Hinf' & _).
  pose proof (proj1 (operational_run more st Hop)) as Hcons.
  split.
  - intros h Hh.
    destruct (cons_timers _ Hcons h p Hh) as (_ & c0 & Hc0 & _ & _ & _ & Hf).
    congruence.
  - exists c'. split; [exact Hc'|]. split; [exact Hid|].
    destruct (cons_outcomes _ Hcons p c' Hc')
      as [Hs|[(v & Hs & _)|(_ & _ & Hf)]]; [auto|eauto|congruence].
Qed.

(** With a [send] that returns, the call is the call of the model. *)
Lemma emitter_send_or_returns ch v st :
  emitter_send_or None ch v st = emitter_send ch v st.
Proof.
  unfold emitter_send_or, emitter_send, bind, gets, modify, ret.
  cbn [fst snd]. destruct (emitterObj st); reflexivity.
Qed.

Lemma bind_ext {A B} (m : js A) (k k' : A -> js B) st :
  (forall a st', k a st' = k' a st') -> bind m k st = bind m k' st.
Proof.
  intros Hk. unfold bind.
  destruct (m st) as [[a|x] st']; [apply Hk|reflexivity].
Qed.

Lemma executor_or_returns id a d o i t p st :
  executor_or None id a d o i t p st = executor id a d o i t p st.
Proof.
  unfold executor_or, executor.
  apply bind_ext. intros _ st1. apply bind_ext. intros _ st2.
  apply emitter_send_or_returns.
Qed.

Lemma sendMessageRequest_or_returns a d t now st :
  sendMessageRequest_or None a d t now st = sendMessageRequest a d t now st.
Proof.
  unfold sendMessageRequest_or, sendMessageRequest, new_Promise,
    post_increment_seed, bind, gets, modify, ret.
  cbn [fst snd]. rewrite executor_or_returns. reflexivity.
Qed.

(** The state after a one-way call, whatever [send] does. *)
Lemma sendMessageRequest_or_oneWay thrown a d t now st l e :
  listenerObj st = Some l -> emitterObj st = Some e ->
  oneWay_of t = true ->
  sendMessageRequest_or thrown a d t now st =
  (Ok (length (closures st)),
   {| seed := incr (seed st); emitterObj := Some e; listenerObj := Some l;
      closures :=
        (closures st ++
         [Closure (message_id (seed st) now) a true false None
            match thrown with
            | Some x => [Thrown x]
            | None => []
            end])%list;
      listeners := listeners st; timers := timers st;
      next_timer := next_timer st;
      trace :=
        (trace st ++
         [ESend e "message-request"
            (message (message_id (seed st) now) a d)])%list |}).
Proof.
  intros Hl He Ho. pose proof (oneWay_not_infinite t Ho) as Hi.
  unfold oneWay_of, infinite_of in *.
  destruct st; simpl in *; subst.
  unfold sendMessageRequest_or. rewrite Ho, Hi.
  destruct thrown as [x|]; [|reflexivity].
  lazy beta iota zeta delta
    [new_Promise post_increment_seed executor_or emitter_send_or settle bind
     gets modify ret throw log set_seed set_closures set_listeners set_timers
     seed emitterObj listenerObj closures listeners timers next_timer trace
     negb andb fst snd].
  rewrite alter_last. reflexivity.
Qed.

(** C3, as stated, fails on two counts.  The promise of a one-way request
    is not resolved by the call: when [send] returns, nothing has settled
    it.  And the caller is told of a [send] that fails: the exception leaves
    the executor and rejects the promise. *)
Lemma one_way_promise_reports_failed_send :
  let st := started 7 None 3 [] in
  let sent := sendMessageRequest "log" VNull (Some (Finite 0)) 1700 st in
  let failed :=
    sendMessageRequest_or (Some (Error "send failed")) "log" VNull
      (Some (Finite 0)) 1700 st in
  closures (snd sent) =
    [Closure "msg-1-1700" "log" true false None []] /\
  closures (snd failed) =
    [Closure "msg-1-1700" "log" true false None
       [Thrown (Error "send failed")]].
Proof.
  vm_compute. split; reflexivity.
Qed.

(** C3, amended: in an initialized module a call with [timeout] equal to 0
    arms no timer and subscribes no function; the only call it makes outside
    the module is [emitterObj.send] on the channel of requests, with the
    message [{id, action, data}].  The promise it returns is never resolved.
    When [send] returns, nothing settles the promise, in the call or in any
    state that follows: the caller is not told that the message was sent.
    When [send] throws, the exception rejects the promise: it is the first
    settlement of the promise in every state that follows. *)
Theorem one_way_settles_only_on_failed_send (l : nat) (e : option nat)
    (cb : nat) (inputs : list input) (thrown : option exn)
    (action : string) (data : jsval) (q : Q) (now : Z) :
  (q == 0)%Q ->
  let st := started l e cb inputs in
  let id := message_id (seed st) now in
  let p := length (closures st) in
  let call :=
    sendMessageRequest_or thrown action data (Some (Finite q)) now st in
  let outcome :=
    match thrown with
    | Some x => [Thrown x]
    | None => []
    end in
  fst call = Ok p /\
  timers (snd call) = timers st /\
  next_timer (snd call) = next_timer st /\
  listeners (snd call) = listeners st /\
  trace (snd call) =
    (trace st ++
     [ESend (default l e) "message-request"
        (VObj [("id", VStr id); ("action", VStr action);
               ("data", data)])])%list /\
  closures (snd call) !! p =
    Some (Closure id action true false None outcome) /\
  forall more,
    exists c,
      closures (run more (snd call)) !! p = Some c /\
      c_oneWay c = true /\
      outcome `prefix_of` c_settled c /\
      (thrown = None -> c_settled c = []).
Proof.
  intros Hq st id p call outcome.
  pose proof (operational_started l e cb inputs) as Hop. fold st in Hop.
  destruct (started_objects l e cb inputs) as [Hl He]. fold st in Hl, He.
  pose proof (zero_oneWay q Hq) as Hone.
  assert (Hcall : call = _)
    by exact (sendMessageRequest_or_oneWay thrown action data _ now st l _
                Hl He Hone).
  assert (Hp : closures (snd call) !! p =
               Some (Closure id action true false None outcome)).
  { rewrite Hcall. cbn [snd closures].
    apply list_lookup_middle. reflexivity. }
  split; [rewrite Hcall; reflexivity|].
  split; [rewrite Hcall; reflexivity|].
  split; [rewrite Hcall; reflexivity|].
  split; [rewrite Hcall; reflexivity|].
  split; [rewrite Hcall; reflexivity|].
  split; [exact Hp|].
  intros more.
  destruct (run_extends more (snd call) p _ Hp)
    as (c & Hc & _ & _ & Ho & _ & Hpre).
  exists c. split; [exact Hc|]. split; [exact Ho|]. split; [exact Hpre|].
  intros ->.
  assert (Hop' : operational (snd call)).
  { unfold call. rewrite sendMessageRequest_or_returns.
    exact (operational_step
             (Call_sendMessageRequest action data (Some (Finite q)) now)
             st Hop). }
  destruct (oneWay_never_settled (snd call) p _ more Hop' Hp eq_refl)
    as (c' & Hc' & _ & Hs).
  congruence.
Qed.

Lemma one_way_settles_only_on_failed_send_witness :
  let st := started 7 None 3 [] in
  let call :=
    sendMessageRequest_or (Some (Error "send failed")) "log" VNull
      (Some (Finite 0)) 1700 st in
  fst call = Ok 0%nat /\
  timers (snd call) = timers st /\
  next_timer (snd call) = next_timer st /\
  listeners (snd call) = listeners st /\
  trace (snd call) =
    (trace st ++
     [ESend 7 "message-request"
        (VObj [("id", VStr "msg-1-1700"); ("action", VStr "log");
               ("data", VNull)])])%list /\
  closures (snd call) !! 0%nat =
    Some (Closure "msg-1-1700" "log" true false None
            [Thrown (Error "send failed")]) /\
  forall more,
    exists c,
      closures (run more (snd call)) !! 0%nat = Some c /\
      c_oneWay c = true /\
      [Thrown (Error "send failed")] `prefix_of` c_settled c /\
      (Some (Error "send failed") = None -> c_settled c = []).
Proof.
  apply (one_way_settles_only_on_failed_send 7 None 3 []
           (Some (Error "send failed")) "log" VNull 0 1700).
  reflexivity.
Defined.

(** C6: a call with [timeout] other than 0 arms its timer, if it has one,
    and subscribes its function to the channel named after the identifier
    before it hands the message to the emitter, which is the last thing it
    does.  When the call returns the function is subscribed and the timer
    armed, and a reply arriving next on that channel resolves the promise
    with the reply. *)
Theorem registration_precedes_send (l : nat) (e : option nat) (cb : nat)
    (inputs : list input) (action : string) (data : jsval)
    (timeout : option number) (now : Z) :
  (forall q, timeout = Some (Finite q) -> ~ (q == 0)%Q) ->
  let st := started l e cb inputs in
  let call := sendMessageRequest action data timeout now st in
  let p := length (closures st) in
  let id := message_id (seed st) now in
  fst call = Ok p /\
  trace (snd call) =
    (trace st ++
     ((if infinite_of timeout then []
       else [ESetTimeout (next_timer st) (delay_of timeout)]) ++
      [EOnce l id]) ++
     [ESend (default l e) "message-request" (message id action data)])%list /\
  Subscription id true (OnReply p) ∈ listeners (snd call) /\
  (infinite_of timeout = false ->
   timers (snd call) !! next_timer st = Some p) /\
  forall ev reply,
    exists c,
      closures (step (Incoming id ev reply) (snd call)) !! p = Some c /\
      c_settled c = [Resolved reply].
Proof.
  intros Hnz st call p id.
  assert (Hone : oneWay_of timeout = false).
  { unfold oneWay_of, strict_eq_zero. destruct timeout as [[| |q]|]; auto.
    apply Qeq_bool_nonzero. eauto. }
  pose proof (operational_started l e cb inputs) as Hop. fold st in Hop.
  destruct (started_objects l e cb inputs) as [Hl He]. fold st in Hl, He.
  assert (Hop' : operational (snd call))
    by exact (operational_step
                (Call_sendMessageRequest action data timeout now) st Hop).
  assert (Hreply : forall c,
            closures (snd call) !! p = Some c -> c_settled c = [] ->
            Subscription id true (OnReply p) ∈ listeners (snd call) ->
            forall ev reply,
              exists c',
                closures (step (Incoming id ev reply) (snd call)) !! p
                  = Some c' /\
                c_settled c' = [Resolved reply]).
  { intros c Hc Hset Hin ev reply.
    destruct (emit_reply_channel (snd call) id ev reply Hop'
                (message_id_not_request _ _)) as [_ Hall].
    destruct (Hall p c Hc) as (c' & Hc' & Hs'). exists c'.
    split; [exact Hc'|]. rewrite Hs', Hset.
    rewrite decide_True by exact Hin. reflexivity. }
  revert Hop' Hreply.
  destruct (infinite_of timeout) eqn:Hinf.
  - assert (Hcall : call = _)
      by exact (sendMessageRequest_infinite action data timeout now st l _
                  Hl He Hone Hinf).
    rewrite Hcall. cbn [fst snd]. intros Hop' Hreply.
    assert (Hin : Subscription id true (OnReply p) ∈
                  (listeners st ++ [Subscription id true (OnReply p)])%list)
      by (apply elem_of_app; right; left).
    repeat split; try reflexivity; try exact Hin; try discriminate.
    eapply Hreply; [..|exact Hin].
    + fields. rewrite lookup_app_r by (unfold p; lia).
      unfold p. rewrite Nat.sub_diag. reflexivity.
    + reflexivity.
  - assert (Hcall : call = _)
      by exact (sendMessageRequest_finite action data timeout now st l _
                  Hl He Hone Hinf).
    rewrite Hcall. cbn [fst snd]. intros Hop' Hreply.
    assert (Hin : Subscription id true (OnReply p) ∈
                  (listeners st ++ [Subscription id true (OnReply p)])%list)
      by (apply elem_of_app; right; left).
    repeat split; try reflexivity; try exact Hin.
    + intros _. fields. apply lookup_insert_eq.
    + eapply Hreply; [..|exact Hin].
      * fields. rewrite lookup_app_r by (unfold p; lia).
        unfold p. rewrite Nat.sub_diag. reflexivity.
      * reflexivity.
Qed.

Lemma registration_precedes_send_witness :
  let st := started 7 None 3 [] in
  let call := sendMessageRequest "ping" VNull (Some (Finite 50)) 1700 st in
  fst call = Ok 0%nat /\
  trace (snd call) =
    (trace st ++
     ([ESetTimeout 1 (Some (Finite 50))] ++ [EOnce 7 "msg-1-1700"]) ++
     [ESend 7 "message-request" (message "msg-1-1700" "ping" VNull)])%list /\
  Subscription "msg-1-1700" true (OnReply 0) ∈ listeners (snd call) /\
  (false = false -> timers (snd call) !! 1%nat = Some 0%nat) /\
  forall ev reply,
    exists c,
      closures (step (Incoming "msg-1-1700" ev reply) (snd call)) !! 0%nat
        = Some c /\
      c_settled c = [Resolved reply].
Proof.
  apply (registration_precedes_send 7 None 3 [] "ping" VNull
           (Some (Finite 50)) 1700).
  intros q [= <-]. discriminate.
Defined.

(** C4: how sendMessageRequest reads [timeout].  Equal to 0: the request is
    one-way, no timer is armed and nothing is subscribed.  Negative: no timer
    is armed, then or later, so the promise is never rejected; the function
    of the request is subscribed, and the only input that settles the
    promise is an event on the channel named after the identifier, which
    resolves it with the reply.  Absent or NaN: a timer is armed with the
    delay 2000.  Positive: a timer is armed with the delay given. *)
Theorem timeout_readings (l : nat) (e : option nat) (cb : nat)
    (inputs : list input) (action : string) (data : jsval) (now : Z) :
  let st := started l e cb inputs in
  let p := length (closures st) in
  let id := message_id (seed st) now in
  let after t := snd (sendMessageRequest action data t now st) in
  let send := ESend (default l e) "message-request" (message id action data) in
  (forall q, (q == 0)%Q ->
     timers (after (Some (Finite q))) = timers st /\
     listeners (after (Some (Finite q))) = listeners st /\
     trace (after (Some (Finite q))) = (trace st ++ [send])%list /\
     exists c, closures (after (Some (Finite q))) !! p = Some c /\
               c_oneWay c = true) /\
  (forall n, negative n ->
     timers (after (Some n)) = timers st /\
     listeners (after (Some n)) =
       (listeners st ++ [Subscription id true (OnReply p)])%list /\
     trace (after (Some n)) = (trace st ++ [EOnce l id; send])%list /\
     forall more,
       (forall h, timers (run more (after (Some n))) !! h <> Some p) /\
       exists c,
         closures (run more (after (Some n))) !! p = Some c /\
         (c_settled c = [] \/ exists reply, c_settled c = [Resolved reply]) /\
         forall i c',
           c_settled c = [] ->
           closures (step i (run more (after (Some n)))) !! p = Some c' ->
           c_settled c' <> [] ->
           exists ev reply,
             i = Incoming id ev reply /\ c_settled c' = [Resolved reply]) /\
  (forall t, t = None \/ t = Some NaN ->
     timers (after t) = <[next_timer st := p]> (timers st) /\
     trace (after t) =
       (trace st ++
        [ESetTimeout (next_timer st) (Some (Finite 2000)); EOnce l id;
         send])%list) /\
  (forall n, positive n ->
     timers (after (Some n)) = <[next_timer st := p]> (timers st) /\
     trace (after (Some n)) =
       (trace st ++
        [ESetTimeout (next_timer st) (Some n); EOnce l id; send])%list).
Proof.
  intros st p id after send.
  pose proof (operational_started l e cb inputs) as Hop. fold st in Hop.
  destruct (started_objects l e cb inputs) as [Hl He]. fold st in Hl, He.
  assert (Hafter : forall t, operational (after t))
    by (intros t;
        exact (operational_step
                 (Call_sendMessageRequest action data t now) st Hop)).
  split; [|split; [|split]].
  - intros q Hq. unfold after.
    rewrite (sendMessageRequest_oneWay action data _ now st l _ Hl He
               (zero_oneWay q Hq)).
    cbn [snd]. repeat split.
    exists (Closure id action true false None []). split; [|reflexivity].
    fields. rewrite lookup_app_r by (unfold p; lia).
    unfold p. rewrite Nat.sub_diag. reflexivity.
  - intros n Hn. destruct (negative_infinite n Hn) as [Hone Hinf].
    specialize (Hafter (Some n)). revert Hafter. unfold after.
    rewrite (sendMessageRequest_infinite action data _ now st l _ Hl He
               Hone Hinf).
    cbn [snd]. set (st' := State _ _ _ _ _ _ _ _). intros Hop'.
    repeat split.
    + apply (infinite_never_expires st' p
               (Closure id action false true None []) more Hop');
        [|reflexivity].
      unfold st'. fields. rewrite lookup_app_r by (unfold p; lia).
      unfold p. rewrite Nat.sub_diag. reflexivity.
    + destruct (infinite_never_expires st' p
                  (Closure id action false true None []) more Hop')
        as (Hnot & c & Hc & Hid & Hs); [|reflexivity|].
      { unfold st'. fields. rewrite lookup_app_r by (unfold p; lia).
        unfold p. rewrite Nat.sub_diag. reflexivity. }
      exists c. split; [exact Hc|]. split; [exact Hs|].
      intros i c' Hset Hc' Hne.
      destruct (settled_by (run more st') i p c c'
                  (operational_run more st' Hop') Hc Hset Hc' Hne)
        as [(ev & v & -> & Hv)|(h & _ & Hh & _)].
      * exists ev, v. rewrite Hid. auto.
      * destruct (Hnot h Hh).
  - intros t Ht. destruct (absent_default t Ht) as (Hone & Hinf & Hd).
    unfold after.
    rewrite (sendMessageRequest_finite action data _ now st l _ Hl He
               Hone Hinf), Hd.
    split; reflexivity.
  - intros n Hn. destruct (positive_finite n Hn) as (Hone & Hinf & Hd).
    unfold after.
    rewrite (sendMessageRequest_finite action data _ now st l _ Hl He
               Hone Hinf), Hd.
    split; reflexivity.
Qed.

(** * More of the module

    What follows goes beyond the ten claims above: the function that
    initMessaging subscribes, the way the four functions compose across two
    processes, what a reply does to the timer, what the module writes to the
    console, and what it does before it is initialized. *)

(** The state after the turn of subscription [s] in a round: [s] is dropped
    if it was made with [once], then its function is called. *)
Definition turn (s : subscription) (ev : option event) (v : jsval)
    (st : state) : state :=
  snd (call_handler (s_handler s) ev v (unsubscribed s st)).

(** The subscription initMessaging makes for [callback]. *)
Definition request_subscription (callback : nat) : subscription :=
  Subscription "message-request" false (OnRequest callback).

(** The function of initMessaging is subscribed, and no other function of
    its kind is. *)
Definition listening (callback : nat) (st : state) : Prop :=
  request_subscription callback ∈ listeners st /\
  forall s cb, s ∈ listeners st -> s_handler s = OnRequest cb ->
    s = request_subscription callback.

(** ** A rule for rounds

    A reflexive and transitive relation that holds across every turn taken
    in an operational state holds across a round, and across the arrival of
    an event. *)

Lemma same_identifiers_numbered st st' :
  same_identifiers st st' -> numbered st -> numbered st'.
Proof.
  intros [Hs Hi] [Hseed Hids]. split; rewrite Hi, ?Hs; assumption.
Qed.

Lemma turn_same_identifiers s ev v st : same_identifiers st (turn s ev v st).
Proof.
  unfold turn. eapply same_identifiers_trans.
  - instantiate (1 := unsubscribed s st). unfold unsubscribed.
    destruct (s_once s); split; reflexivity.
  - apply (preserves_call_handler same_identifiers);
      same_identifiers_rules.
Qed.

Lemma operational_turn s ev v st :
  operational st -> s ∈ listeners st ->
  operational (turn s ev v st) /\
  forall s', s' ∈ listeners st -> s' <> s -> s' ∈ listeners (turn s ev v st).
Proof.
  intros [Hcons Hnum] Hin.
  destruct (consistent_turn s ev v st Hcons Hin) as [Hcons' Hkeep].
  split; [split; [exact Hcons'|]|exact Hkeep].
  eapply same_identifiers_numbered; [apply turn_same_identifiers|exact Hnum].
Qed.

Section Rounds.

Variable P : state -> state -> Prop.
Hypothesis P_refl : forall st, P st st.
Hypothesis P_trans : forall a b c, P a b -> P b c -> P a c.
Variable ev : option event.
Variable v : jsval.
Hypothesis P_turn :
  forall st s, operational st -> s ∈ listeners st -> P st (turn s ev v st).

Lemma round_rule subs st :
  operational st ->
  (forall s, s ∈ subs -> s ∈ listeners st) ->
  NoDup (s_handler <$> subs) ->
  P st (snd (dispatch subs ev v st)).
Proof.
  revert st. induction subs as [|s rest IH]; intros st Hop Hsub Hnd.
  - apply P_refl.
  - rewrite fmap_cons in Hnd. apply NoDup_cons in Hnd as [Hs Hnd].
    assert (Hin : s ∈ listeners st) by (apply Hsub; left).
    destruct (operational_turn s ev v st Hop Hin) as [Hop' Hkeep].
    pose proof (P_turn st s Hop Hin) as Hturn.
    rewrite dispatch_cons. unfold turn in *.
    destruct (call_handler (s_handler s) ev v (unsubscribed s st))
      as [[[]|err] st']; cbn [snd] in *; [|exact Hturn].
    eapply P_trans; [exact Hturn|].
    apply IH; [exact Hop'| |exact Hnd].
    intros s' Hs'. apply Hkeep; [apply Hsub; right; exact Hs'|].
    intros ->. apply Hs, list_elem_of_fmap. eauto.
Qed.

Lemma event_rule ch st : operational st -> P st (snd (emit ch ev v st)).
Proof.
  intros Hop. unfold emit, bind, gets. cbn [fst snd].
  apply round_rule.
  - exact Hop.
  - intros s Hs. apply list_elem_of_filter in Hs as [_ Hs]. exact Hs.
  - apply NoDup_handlers_filter, (cons_nodup st (proj1 Hop)).
Qed.

End Rounds.

(** The turn of the function of a request, spelled out. *)
Lemma turn_reply_state s p ev v st :
  consistent st -> s ∈ listeners st -> s_handler s = OnReply p ->
  exists c,
    closures st !! p = Some c /\
    s = Subscription (c_id c) true (OnReply p) /\
    awaiting st p c /\
    closures (turn s ev v st) =
      alter (with_settlement (Resolved v)) p (closures st) /\
    listeners (turn s ev v st) = filter (fun s' => s' <> s) (listeners st) /\
    seed (turn s ev v st) = seed st /\
    next_timer (turn s ev v st) = next_timer st /\
    match c_timer c with
    | Some h =>
        timers (turn s ev v st) = delete h (timers st) /\
        trace (turn s ev v st) = (trace st ++ [EClearTimeout h])%list
    | None =>
        timers (turn s ev v st) = timers st /\
        trace (turn s ev v st) = trace st
    end.
Proof.
  intros Hcons Hin Hh.
  destruct (cons_replies st Hcons s p Hin Hh) as (c & Hc & Hseq & Haw).
  exists c. split; [exact Hc|]. split; [exact Hseq|]. split; [exact Haw|].
  assert (Hun : unsubscribed s st =
                set_listeners (filter (fun s' => s' <> s) (listeners st)) st)
    by (unfold unsubscribed; rewrite Hseq; reflexivity).
  unfold turn. rewrite Hh, Hun.
  rewrite (call_handler_reply p c) by exact Hc.
  rewrite on_reply_awaiting by assumption. cbn [snd].
  destruct (c_timer c); repeat split; reflexivity.
Qed.

(** The turn of the function of initMessaging, spelled out. *)
Lemma turn_request_state s cb ev v st :
  s_handler s = OnRequest cb ->
  closures (turn s ev v st) = closures st /\
  listeners (turn s ev v st) = listeners (unsubscribed s st) /\
  timers (turn s ev v st) = timers st /\
  next_timer (turn s ev v st) = next_timer st /\
  seed (turn s ev v st) = seed st /\
  (trace (turn s ev v st) = trace st \/
   exists a d i,
     trace (turn s ev v st) = (trace st ++ [ECallback cb a d ev i])%list).
Proof.
  intros Hh. unfold turn. rewrite Hh. cbn [call_handler]. unfold on_request.
  assert (Hu : closures (unsubscribed s st) = closures st /\
               timers (unsubscribed s st) = timers st /\
               next_timer (unsubscribed s st) = next_timer st /\
               seed (unsubscribed s st) = seed st /\
               trace (unsubscribed s st) = trace st)
    by (unfold unsubscribed; destruct (s_once s); repeat split; reflexivity).
  destruct Hu as (<- & <- & <- & <- & <-).
  destruct (get_prop v "action") as [?|a], (get_prop v "data") as [?|d],
    (get_prop v "id") as [?|i]; cbn [snd fst];
    repeat split; try (left; reflexivity).
  right. exists a, d, i. reflexivity.
Qed.

(** ** Inbound requests *)

Lemma sendMessageRequest_listeners a d t now st :
  consistent st ->
  listeners (snd (sendMessageRequest a d t now st)) =
  (listeners st ++
   if oneWay_of t then []
   else [Subscription (message_id (seed st) now) true
           (OnReply (length (closures st)))])%list.
Proof.
  intros Hcons. destruct (cons_objects st Hcons) as (l & e & Hl & He).
  destruct (oneWay_of t) eqn:Hone; [|destruct (infinite_of t) eqn:Hinf].
  - rewrite (sendMessageRequest_oneWay a d t now st l e) by assumption.
    cbn [snd listeners]. rewrite app_nil_r. reflexivity.
  - rewrite (sendMessageRequest_infinite a d t now st l e) by assumption.
    reflexivity.
  - rewrite (sendMessageRequest_finite a d t now st l e) by assumption.
    reflexivity.
Qed.

Lemma sendMessageReply_listeners m d ev st :
  listeners (snd (sendMessageReply m d ev st)) = listeners st.
Proof.
  apply (preserves_sendMessageReply (fun s s' => listeners s' = listeners s));
    [reflexivity|congruence|reflexivity].
Qed.

Lemma listening_more cb (ls : list subscription) p id :
  (request_subscription cb ∈ ls /\
   forall s cb', s ∈ ls -> s_handler s = OnRequest cb' ->
     s = request_subscription cb) ->
  request_subscription cb ∈ (ls ++ [Subscription id true (OnReply p)])%list /\
  forall s cb', s ∈ (ls ++ [Subscription id true (OnReply p)])%list ->
    s_handler s = OnRequest cb' -> s = request_subscription cb.
Proof.
  intros [Hin Hall]. split; [apply elem_of_app; left; exact Hin|].
  intros s cb' Hs Hh. apply elem_of_app in Hs as [Hs|Hs]; [eauto|].
  apply list_elem_of_singleton in Hs. subst s. discriminate.
Qed.

Lemma listening_fewer cb (ls : list subscription) (P : subscription -> Prop)
    `{!forall s, Decision (P s)} :
  P (request_subscription cb) ->
  (request_subscription cb ∈ ls /\
   forall s cb', s ∈ ls -> s_handler s = OnRequest cb' ->
     s = request_subscription cb) ->
  request_subscription cb ∈ filter P ls /\
  forall s cb', s ∈ filter P ls -> s_handler s = OnRequest cb' ->
    s = request_subscription cb.
Proof.
  intros HP [Hin Hall]. split; [apply list_elem_of_filter; auto|].
  intros s cb' Hs Hh. apply list_elem_of_filter in Hs as [_ Hs]. eauto.
Qed.

Lemma listening_turn cb ev v st s :
  operational st -> s ∈ listeners st ->
  listening cb st -> listening cb (turn s ev v st).
Proof.
  intros [Hcons _] Hin Hlis. unfold listening in *.
  destruct (s_handler s) as [cb'|p] eqn:Hh.
  - destruct (turn_request_state s cb' ev v st Hh) as (_ & -> & _).
    assert (s = request_subscription cb) as -> by (eapply Hlis; eauto).
    exact Hlis.
  - destruct (turn_reply_state s p ev v st Hcons Hin Hh)
      as (c & _ & Hseq & _ & _ & -> & _).
    apply listening_fewer; [|exact Hlis].
    rewrite Hseq. discriminate.
Qed.

Lemma listening_step cb i st :
  operational st -> listening cb st -> listening cb (step i st).
Proof.
  intros Hop Hlis. pose proof (proj1 Hop) as Hcons.
  destruct i as [l e cb0|a d now|m d ev|a d t now|h|ch ev v]; cbn [step].
  - rewrite initMessaging_initialized; [exact Hlis|].
    destruct (cons_objects st Hcons) as (l' & e' & _ & He).
    unfold initialized. rewrite He. reflexivity.
  - unfold sendMessageOneWay, listening.
    rewrite sendMessageRequest_listeners by assumption.
    destruct (oneWay_of _); [rewrite app_nil_r; exact Hlis|].
    apply listening_more, Hlis.
  - unfold listening. rewrite sendMessageReply_listeners. exact Hlis.
  - unfold listening.
    rewrite sendMessageRequest_listeners by assumption.
    destruct (oneWay_of _); [rewrite app_nil_r; exact Hlis|].
    apply listening_more, Hlis.
  - destruct (timers st !! h) as [p|] eqn:Hh;
      [|rewrite fire_idle by assumption; exact Hlis].
    destruct (cons_objects st Hcons) as (l' & e' & Hl & _).
    destruct (cons_timers st Hcons h p Hh) as (_ & c & Hc & _).
    rewrite (fire_armed h p c l') by assumption.
    unfold listening. cbn [snd listeners].
    apply listening_fewer; [|exact Hlis].
    cbn [request_subscription s_channel]. intros Heq.
    exact (operational_id st p c Hop Hc (eq_sym Heq)).
  - revert Hlis.
    apply (event_rule (fun s s' => listening cb s -> listening cb s'));
      [auto|auto| |exact Hop].
    intros st0 s Hop0 Hin. apply listening_turn; assumption.
Qed.

Lemma listening_started l e cb inputs : listening cb (started l e cb inputs).
Proof.
  assert (H0 : listening cb (started l e cb [])).
  { unfold started, listening. cbn. split; [left|].
    intros s cb' Hs _. apply list_elem_of_singleton in Hs. exact Hs. }
  assert (Hrun : forall st, operational st -> listening cb st ->
                   listening cb (run inputs st)).
  { induction inputs as [|i rest IH]; intros st Hop Hlis; [exact Hlis|].
    apply IH; [apply operational_step, Hop|apply listening_step; assumption]. }
  apply (Hrun (started l e cb []) (operational_started l e cb []) H0).
Qed.

Lemma filter_singleton {A} (P : A -> Prop) `{!forall x, Decision (P x)}
    (l : list A) (x : A) :
  NoDup l -> x ∈ l -> P x -> (forall y, y ∈ l -> P y -> y = x) ->
  filter P l = [x].
Proof.
  intros Hnd Hin HP Hall. induction l as [|y l IH]; [inversion Hin|].
  apply NoDup_cons in Hnd as [Hy Hnd]. rewrite filter_cons.
  destruct (decide (P y)) as [HPy|HPy].
  - assert (y = x) as -> by (apply Hall; [left|exact HPy]).
    f_equal. destruct (filter P l) as [|z zs] eqn:Hf; [reflexivity|].
    assert (Hz : z ∈ filter P l) by (rewrite Hf; left).
    apply list_elem_of_filter in Hz as [HPz Hz].
    rewrite (Hall z (list_elem_of_further _ _ _ Hz) HPz) in Hz. contradiction.
  - apply IH; [exact Hnd| |].
    + apply elem_of_cons in Hin as [->|Hin]; [contradiction|exact Hin].
    + intros z Hz. apply Hall. right. exact Hz.
Qed.

Lemma request_channel_listeners cb st :
  operational st -> listening cb st ->
  filter (fun s => s_channel s = "message-request") (listeners st) =
  [request_subscription cb].
Proof.
  intros Hop [Hin Hall]. pose proof (proj1 Hop) as Hcons.
  apply filter_singleton.
  - eapply NoDup_fmap_1, (cons_nodup st Hcons).
  - exact Hin.
  - reflexivity.
  - intros s Hs Hch. destruct (s_handler s) as [cb'|p] eqn:Hh; [eauto|].
    destruct (cons_replies st Hcons s p Hs Hh) as (c & Hc & Hseq & _).
    rewrite Hseq in Hch. cbn [s_channel] in Hch.
    destruct (operational_id st p c Hop Hc Hch).
Qed.

Lemma emit_request_started l e cb inputs ev msg :
  emit "message-request" ev msg (started l e cb inputs) =
  match on_request cb ev msg (started l e cb inputs) with
  | (Ok _, st') => (Ok tt, st')
  | (Raise err, st') => (Raise err, st')
  end.
Proof.
  unfold emit, bind, gets. cbn [fst snd].
  rewrite (request_channel_listeners cb)
    by first [apply operational_started | apply listening_started].
  rewrite dispatch_cons. reflexivity.
Qed.

(** X1: once the module is initialized, and whatever has happened since, an
    event on the channel "message-request" reaches the callback given to
    initMessaging, once, with the [action], [data] and [id] properties of
    the message and the event handle; a property the message lacks is passed
    as [undefined].  Nothing else changes: the subscription was made with
    [on] and stays, so the next event reaches the callback as well.  A
    message that is [null] or [undefined] makes the handler throw a
    TypeError before the callback is called. *)
Theorem request_reaches_callback (l : nat) (e : option nat) (cb : nat)
    (inputs : list input) (ev : option event) (msg : jsval) :
  let st := started l e cb inputs in
  (forall props,
     msg = VObj props ->
     emit "message-request" ev msg st =
     (Ok tt,
      log (ECallback cb (assoc "action" props) (assoc "data" props) ev
             (assoc "id" props)) st)) /\
  (msg = VNull \/ msg = VUndefined ->
   emit "message-request" ev msg st = (Raise TypeError, st)) /\
  (forall more ev' props,
     exists a d i,
       trace (step (Incoming "message-request" ev' (VObj props))
                (run more st)) =
       (trace (run more st) ++ [ECallback cb a d ev' i])%list).
Proof.
  intros st. split; [|split].
  - intros props ->. unfold st. rewrite emit_request_started. reflexivity.
  - intros [-> | ->]; unfold st; rewrite emit_request_started; reflexivity.
  - intros more ev' props.
    assert (Hst : run more st = started l e cb (inputs ++ more)).
    { unfold st, started. rewrite app_comm_cons, run_app. reflexivity. }
    rewrite Hst. cbn [step]. rewrite emit_request_started.
    eexists _, _, _. reflexivity.
Qed.

(** ** From one process to the other *)

Lemma sendMessageRequest_trace a d t now st l e :
  listenerObj st = Some l -> emitterObj st = Some e ->
  exists before,
    trace (snd (sendMessageRequest a d t now st)) =
    (trace st ++ before ++
     [ESend e "message-request" (message (message_id (seed st) now) a d)])%list.
Proof.
  intros Hl He.
  destruct (oneWay_of t) eqn:Hone; [|destruct (infinite_of t) eqn:Hinf].
  - rewrite (sendMessageRequest_oneWay a d t now st l e) by assumption.
    exists []. reflexivity.
  - rewrite (sendMessageRequest_infinite a d t now st l e) by assumption.
    exists [EOnce l (message_id (seed st) now)]. reflexivity.
  - rewrite (sendMessageRequest_finite a d t now st l e) by assumption.
    exists [ESetTimeout (next_timer st) (delay_of t);
            EOnce l (message_id (seed st) now)]. reflexivity.
Qed.

(** X2: what sendMessageRequest hands to its emitter is what the handler of
    initMessaging expects.  The last thing a call does, whatever its
    [timeout], is to send [{id, action, data}] on the channel
    "message-request"; when that message arrives on the listener of an
    initialized module, its callback is called with the action, the data and
    the identifier the sender chose. *)
Theorem message_round_trip (l : nat) (e : option nat) (cb : nat)
    (inputs : list input) (l' : nat) (e' : option nat) (cb' : nat)
    (inputs' : list input) (action : string) (data : jsval)
    (timeout : option number) (now : Z) (ev : option event) :
  let sender := started l e cb inputs in
  let receiver := started l' e' cb' inputs' in
  let id := message_id (seed sender) now in
  last (trace (snd (sendMessageRequest action data timeout now sender))) =
    Some (ESend (default l e) "message-request" (message id action data)) /\
  emit "message-request" ev (message id action data) receiver =
    (Ok tt, log (ECallback cb' (VStr action) data ev (VStr id)) receiver).
Proof.
  intros sender receiver id.
  destruct (started_objects l e cb inputs) as [Hl He].
  destruct (sendMessageRequest_trace action data timeout now sender l
              (default l e) Hl He) as [before ->].
  split.
  - rewrite !app_assoc. apply last_snoc.
  - unfold receiver. rewrite emit_request_started. reflexivity.
Qed.

(** ** Requests that still wait *)

(** Every request that expects a reply and whose promise nothing has settled
    has its timer armed, if it has one. *)
Definition waiting_armed (st : state) : Prop :=
  forall p c, closures st !! p = Some c ->
    c_settled c = [] -> c_oneWay c = false -> awaiting st p c.

(** Every such request has its function subscribed. *)
Definition waiting_subscribed (st : state) : Prop :=
  forall p c, closures st !! p = Some c ->
    c_settled c = [] -> c_oneWay c = false ->
    Subscription (c_id c) true (OnReply p) ∈ listeners st.

Lemma sendMessageRequest_timers a d t now st :
  consistent st ->
  timers (snd (sendMessageRequest a d t now st)) =
  if oneWay_of t || infinite_of t then timers st
  else <[next_timer st := length (closures st)]> (timers st).
Proof.
  intros Hcons. destruct (cons_objects st Hcons) as (l & e & Hl & He).
  destruct (oneWay_of t) eqn:Hone; [|destruct (infinite_of t) eqn:Hinf].
  - rewrite (sendMessageRequest_oneWay a d t now st l e) by assumption.
    reflexivity.
  - rewrite (sendMessageRequest_infinite a d t now st l e) by assumption.
    reflexivity.
  - rewrite (sendMessageRequest_finite a d t now st l e) by assumption.
    reflexivity.
Qed.

Lemma awaiting_frame st st' p c :
  (forall h, timers st !! h = Some p -> timers st' !! h = Some p) ->
  awaiting st p c -> awaiting st' p c.
Proof.
  intros Hkeep (Hset & Hone & Haw). split; [exact Hset|]. split; [exact Hone|].
  destruct (c_infinite c); [exact Haw|].
  destruct Haw as (h & Hh & Ht). exists h. auto.
Qed.

Lemma waiting_armed_send a d t now st :
  consistent st -> waiting_armed st ->
  waiting_armed (snd (sendMessageRequest a d t now st)).
Proof.
  intros Hcons Hw p c Hc Hset Hone.
  destruct (sendMessageRequest_closures a d t now st Hcons) as [_ Hcl].
  pose proof (sendMessageRequest_timers a d t now st Hcons) as Htm.
  rewrite Hcl in Hc. apply lookup_app_Some in Hc as [Hc|[Hge Hc]].
  - apply (awaiting_frame st); [|apply Hw; assumption].
    intros h Hh. rewrite Htm.
    destruct (oneWay_of t || infinite_of t); [exact Hh|].
    rewrite lookup_insert_ne; [exact Hh|].
    destruct (cons_timers st Hcons h p Hh) as [Hlt _]. lia.
  - apply list_lookup_singleton_Some in Hc as [Hp <-].
    cbn [c_oneWay] in Hone.
    assert (p = length (closures st)) as -> by lia.
    unfold awaiting. cbn [c_settled c_oneWay c_infinite c_timer].
    rewrite Htm, Hone. cbn [orb].
    destruct (infinite_of t); repeat split.
    exists (next_timer st). split; [reflexivity|]. apply lookup_insert_eq.
Qed.

Lemma waiting_armed_fire h st :
  consistent st -> waiting_armed st -> waiting_armed (snd (fire h st)).
Proof.
  intros Hcons Hw.
  destruct (timers st !! h) as [p0|] eqn:Hh;
    [|rewrite fire_idle by assumption; exact Hw].
  destruct (cons_objects st Hcons) as (l & e & Hl & _).
  destruct (cons_timers st Hcons h p0 Hh) as (_ & c0 & Hc0 & Ht0 & Hs0 & _).
  rewrite (fire_armed h p0 c0 l) by assumption. cbn [snd].
  intros p c Hc Hset Hone. cbn [closures] in Hc.
  destruct (decide (p0 = p)) as [<-|Hne].
  - rewrite list_lookup_alter_eq, list_lookup_alter_eq, Hc0 in Hc.
    injection Hc as <-. cbn in Hset. rewrite Hs0 in Hset. discriminate.
  - rewrite !list_lookup_alter_ne in Hc by assumption.
    apply (awaiting_frame st); [|apply Hw; assumption].
    intros h' Hh'. cbn [timers]. rewrite lookup_delete_ne; [exact Hh'|].
    intros <-. congruence.
Qed.

Lemma waiting_armed_turn s ev v st :
  operational st -> s ∈ listeners st ->
  waiting_armed st -> waiting_armed (turn s ev v st).
Proof.
  intros [Hcons _] Hin Hw p c Hc Hset Hone.
  destruct (s_handler s) as [cb|p0] eqn:Hh.
  - destruct (turn_request_state s cb ev v st Hh) as (Hcl & _ & Htm & _).
    rewrite Hcl in Hc. apply (awaiting_frame st); [|apply Hw; assumption].
    intros h Hth. rewrite Htm. exact Hth.
  - destruct (turn_reply_state s p0 ev v st Hcons Hin Hh)
      as (c0 & Hc0 & _ & Haw0 & Hcl & _ & _ & _ & Htm).
    rewrite Hcl in Hc. destruct (decide (p0 = p)) as [<-|Hne].
    + rewrite list_lookup_alter_eq, Hc0 in Hc. injection Hc as <-.
      cbn in Hset. destruct (c_settled c0); discriminate.
    + rewrite list_lookup_alter_ne in Hc by assumption.
      apply (awaiting_frame st); [|apply Hw; assumption].
      intros h Hth. destruct (c_timer c0) as [h0|] eqn:Ht0.
      * destruct Htm as [-> _]. rewrite lookup_delete_ne; [exact Hth|].
        intros <-. destruct Haw0 as (_ & _ & Haw0).
        destruct (c_infinite c0); [congruence|].
        destruct Haw0 as (h1 & Hh1 & Hth1). congruence.
      * destruct Htm as [-> _]. exact Hth.
Qed.

Lemma waiting_armed_step i st :
  operational st -> waiting_armed st -> waiting_armed (step i st).
Proof.
  intros Hop Hw. pose proof (proj1 Hop) as Hcons.
  destruct i as [l e cb0|a d now|m d ev|a d t now|h|ch ev v]; cbn [step].
  - rewrite initMessaging_initialized; [exact Hw|].
    destruct (cons_objects st Hcons) as (l' & e' & _ & He).
    unfold initialized. rewrite He. reflexivity.
  - apply waiting_armed_send; assumption.
  - intros p c Hc Hset Hone. rewrite sendMessageReply_closures in Hc.
    apply (awaiting_frame st); [|apply Hw; assumption].
    intros h Hh.
    assert (timers (snd (sendMessageReply m d ev st)) = timers st) as ->;
      [|exact Hh].
    apply (preserves_sendMessageReply (fun s s' => timers s' = timers s));
      [reflexivity|congruence|reflexivity].
  - apply waiting_armed_send; assumption.
  - apply waiting_armed_fire; assumption.
  - revert Hw.
    apply (event_rule (fun s s' => waiting_armed s -> waiting_armed s'));
      [auto|auto| |exact Hop].
    intros st0 s Hop0 Hin. apply waiting_armed_turn; assumption.
Qed.

Lemma waiting_armed_started l e cb inputs :
  waiting_armed (started l e cb inputs).
Proof.
  assert (H0 : waiting_armed (started l e cb [])).
  { intros p c Hc. unfold started in Hc. cbn in Hc. discriminate. }
  assert (Hrun : forall st, operational st -> waiting_armed st ->
                   waiting_armed (run inputs st)).
  { induction inputs as [|i rest IH]; intros st Hop Hw; [exact Hw|].
    apply IH; [apply operational_step, Hop|].
    apply waiting_armed_step; assumption. }
  apply (Hrun (started l e cb []) (operational_started l e cb []) H0).
Qed.

Lemma extends_length st st' :
  extends st st' -> (length (closures st) <= length (closures st'))%nat.
Proof.
  intros Hext. destruct (closures st) as [|c0 cs] eqn:Hcl using rev_ind;
    [simpl; lia|].
  clear IHcs. rewrite length_app. cbn [length].
  destruct (Hext (length cs) c0) as (c' & Hc' & _).
  { rewrite Hcl, lookup_app_r by lia. rewrite Nat.sub_diag. reflexivity. }
  apply lookup_lt_Some in Hc'. lia.
Qed.

(** Below the limit of the counter no two requests share an identifier. *)
Lemma identifiers_unique st p q cp cq :
  numbered st -> Z.of_nat (length (closures st)) < seed_limit ->
  closures st !! p = Some cp -> closures st !! q = Some cq ->
  c_id cp = c_id cq -> p = q.
Proof.
  intros [_ Hids] Hlen Hp Hq Heq.
  destruct (Hids p (c_id cp)) as [now Hidp].
  { unfold identifiers. rewrite list_lookup_fmap, Hp. reflexivity. }
  destruct (Hids q (c_id cq)) as [now' Hidq].
  { unfold identifiers. rewrite list_lookup_fmap, Hq. reflexivity. }
  apply lookup_lt_Some in Hp, Hq.
  rewrite Hidp, Hidq in Heq.
  apply message_id_inj in Heq; unfold seed_of in *; lia.
Qed.

Lemma waiting_subscribed_turn s ev v st :
  operational st -> s ∈ listeners st ->
  waiting_subscribed st -> waiting_subscribed (turn s ev v st).
Proof.
  intros [Hcons _] Hin Hw p c Hc Hset Hone.
  destruct (s_handler s) as [cb|p0] eqn:Hh.
  - destruct (turn_request_state s cb ev v st Hh) as (Hcl & -> & _).
    rewrite Hcl in Hc. pose proof (Hw p c Hc Hset Hone) as Hsub.
    unfold unsubscribed. destruct (s_once s); [|exact Hsub].
    apply list_elem_of_filter. split; [|exact Hsub].
    intros <-. discriminate.
  - destruct (turn_reply_state s p0 ev v st Hcons Hin Hh)
      as (c0 & Hc0 & Hseq & _ & Hcl & -> & _).
    rewrite Hcl in Hc. destruct (decide (p0 = p)) as [<-|Hne].
    + rewrite list_lookup_alter_eq, Hc0 in Hc. injection Hc as <-.
      cbn in Hset. destruct (c_settled c0); discriminate.
    + rewrite list_lookup_alter_ne in Hc by assumption.
      apply list_elem_of_filter. split; [|apply Hw; assumption].
      rewrite Hseq. congruence.
Qed.

Lemma waiting_subscribed_step i st :
  operational st -> Z.of_nat (length (closures st)) < seed_limit ->
  waiting_subscribed st -> waiting_subscribed (step i st).
Proof.
  intros Hop Hlen Hw. pose proof (proj1 Hop) as Hcons.
  assert (Hsend : forall a d t now,
            waiting_subscribed (snd (sendMessageRequest a d t now st))).
  { intros a d t now p c Hc Hset Hone.
    destruct (sendMessageRequest_closures a d t now st Hcons) as [_ Hcl].
    rewrite sendMessageRequest_listeners by assumption.
    rewrite Hcl in Hc. apply lookup_app_Some in Hc as [Hc|[Hge Hc]].
    - apply elem_of_app. left. apply Hw; assumption.
    - apply list_lookup_singleton_Some in Hc as [Hp <-].
      cbn [c_oneWay c_id] in *. rewrite Hone.
      assert (p = length (closures st)) as -> by lia.
      apply elem_of_app. right. left. }
  destruct i as [l e cb0|a d now|m d ev|a d t now|h|ch ev v]; cbn [step].
  - rewrite initMessaging_initialized; [exact Hw|].
    destruct (cons_objects st Hcons) as (l' & e' & _ & He).
    unfold initialized. rewrite He. reflexivity.
  - apply Hsend.
  - intros p c Hc. rewrite sendMessageReply_closures in Hc.
    rewrite sendMessageReply_listeners. apply Hw, Hc.
  - apply Hsend.
  - destruct (timers st !! h) as [p0|] eqn:Hh;
      [|rewrite fire_idle by assumption; exact Hw].
    destruct (cons_objects st Hcons) as (l & e & Hl & _).
    destruct (cons_timers st Hcons h p0 Hh) as (_ & c0 & Hc0 & _ & Hs0 & _).
    rewrite (fire_armed h p0 c0 l) by assumption. cbn [snd].
    intros p c Hc Hset Hone. cbn [closures listeners] in *.
    destruct (decide (p0 = p)) as [<-|Hne].
    + rewrite list_lookup_alter_eq, list_lookup_alter_eq, Hc0 in Hc.
      injection Hc as <-. cbn in Hset. rewrite Hs0 in Hset. discriminate.
    + rewrite !list_lookup_alter_ne in Hc by assumption.
      apply list_elem_of_filter. split; [|apply Hw; assumption].
      cbn [s_channel]. intros Heq. apply Hne. symmetry.
      exact (identifiers_unique st p p0 c c0 (proj2 Hop) Hlen Hc Hc0 Heq).
  - revert Hw.
    apply (event_rule
             (fun s s' => waiting_subscribed s -> waiting_subscribed s'));
      [auto|auto| |exact Hop].
    intros st0 s Hop0 Hin. apply waiting_subscribed_turn; assumption.
Qed.

Lemma waiting_subscribed_started l e cb inputs :
  Z.of_nat (length (closures (started l e cb inputs))) < seed_limit ->
  waiting_subscribed (started l e cb inputs).
Proof.
  assert (H0 : waiting_subscribed (started l e cb [])).
  { intros p c Hc. unfold started in Hc. cbn in Hc. discriminate. }
  assert (Hrun : forall st, operational st -> waiting_subscribed st ->
                   Z.of_nat (length (closures (run inputs st))) < seed_limit ->
                   waiting_subscribed (run inputs st)).
  { induction inputs as [|i rest IH]; intros st Hop Hw Hlen; [exact Hw|].
    cbn [run fold_left] in *. fold (run rest (step i st)) in *.
    pose proof (extends_length _ _ (run_extends rest (step i st))) as H1.
    pose proof (extends_length _ _ (step_extends i st)) as H2.
    apply IH; [apply operational_step, Hop| |exact Hlen].
    apply waiting_subscribed_step; [exact Hop|lia|exact Hw]. }
  apply (Hrun (started l e cb []) (operational_started l e cb []) H0).
Qed.

(** A reply to a request that still waits resolves its promise. *)
Lemma reply_resolves_waiting l e cb inputs p c ev reply :
  Z.of_nat (length (closures (started l e cb inputs))) < seed_limit ->
  closures (started l e cb inputs) !! p = Some c ->
  c_settled c = [] -> c_oneWay c = false ->
  exists c',
    closures (step (Incoming (c_id c) ev reply) (started l e cb inputs))
      !! p = Some c' /\
    c_settled c' = [Resolved reply].
Proof.
  intros Hlen Hc Hset Hone.
  pose proof (operational_started l e cb inputs) as Hop.
  pose proof (waiting_subscribed_started l e cb inputs Hlen p c Hc Hset Hone)
    as Hsub.
  destruct (emit_reply_channel _ (c_id c) ev reply Hop
              (operational_id _ p c Hop Hc)) as [_ Hall].
  destruct (Hall p c Hc) as (c' & Hc' & Hs'). exists c'.
  split; [exact Hc'|]. rewrite Hs', Hset.
  rewrite decide_True by exact Hsub. reflexivity.
Qed.

(** X3: as long as fewer than [2^53] messages have been sent, a request that
    expects a reply and whose promise is not settled can still be settled,
    whatever has happened in between: its function is subscribed to the
    channel named after its identifier, so that a reply arriving there
    resolves the promise with that reply; and if its wait is finite its
    timer is armed, so that the expiry of the timer rejects the promise with
    "Timed out". *)
Theorem waiting_request_is_answerable (l : nat) (e : option nat) (cb : nat)
    (inputs : list input) (p : nat) (c : closure) :
  Z.of_nat (length (closures (started l e cb inputs))) < seed_limit ->
  closures (started l e cb inputs) !! p = Some c ->
  c_settled c = [] -> c_oneWay c = false ->
  Subscription (c_id c) true (OnReply p) ∈ listeners (started l e cb inputs) /\
  (forall ev reply,
     exists c',
       closures (step (Incoming (c_id c) ev reply) (started l e cb inputs))
         !! p = Some c' /\
       c_settled c' = [Resolved reply]) /\
  (c_infinite c = false ->
   exists h,
     c_timer c = Some h /\ timers (started l e cb inputs) !! h = Some p /\
     exists c',
       closures (step (Timer h) (started l e cb inputs)) !! p = Some c' /\
       c_settled c' = [Rejected (VStr "Timed out")]).
Proof.
  intros Hlen Hc Hset Hone.
  pose proof (operational_started l e cb inputs) as Hop.
  pose proof (waiting_subscribed_started l e cb inputs Hlen p c Hc Hset Hone)
    as Hsub.
  pose proof (waiting_armed_started l e cb inputs p c Hc Hset Hone)
    as (_ & _ & Haw).
  split; [exact Hsub|]. split.
  - intros ev reply. apply reply_resolves_waiting; assumption.
  - intros Hinf. rewrite Hinf in Haw. destruct Haw as (h & Hh & Hth).
    exists h. split; [exact Hh|]. split; [exact Hth|].
    destruct (started_objects l e cb inputs) as [Hl _].
    cbn [step]. rewrite (fire_armed h p c l) by assumption.
    cbn [snd closures]. eexists. split.
    + rewrite list_lookup_alter_eq, list_lookup_alter_eq, Hc. reflexivity.
    + cbn. rewrite Hset. reflexivity.
Qed.

Lemma waiting_request_is_answerable_witness :
  let st :=
    started 7 None 3
      [Call_sendMessageRequest "ping" VNull (Some (Finite 50)) 1700;
       Call_sendMessageOneWay "note" VNull 1701;
       Incoming "message-request" None VNull] in
  Subscription "msg-1-1700" true (OnReply 0) ∈ listeners st /\
  (forall ev reply,
     exists c',
       closures (step (Incoming "msg-1-1700" ev reply) st) !! 0%nat
         = Some c' /\
       c_settled c' = [Resolved reply]) /\
  (false = false ->
   exists h,
     Some 1%nat = Some h /\ timers st !! h = Some 0%nat /\
     exists c',
       closures (step (Timer h) st) !! 0%nat = Some c' /\
       c_settled c' = [Rejected (VStr "Timed out")]).
Proof.
  apply (waiting_request_is_answerable 7 None 3
           [Call_sendMessageRequest "ping" VNull (Some (Finite 50)) 1700;
            Call_sendMessageOneWay "note" VNull 1701;
            Incoming "message-request" None VNull]
           0%nat
           {| c_id := "msg-1-1700"; c_action := "ping"; c_oneWay := false;
              c_infinite := false; c_timer := Some 1%nat;
              c_settled := [] |});
    vm_compute; reflexivity.
Defined.

(** ** A request and its reply, end to end *)

(** The channel and the payload a call puts on the wire. *)
Definition carried (x : effect) : option (string * jsval) :=
  match x with
  | ESend _ channel payload => Some (channel, payload)
  | EEventReply _ messageId data => Some (messageId, data)
  | _ => None
  end.

Lemma sendMessageReply_carries m d ev st emitter :
  emitterObj st = Some emitter ->
  exists x,
    sendMessageReply m d ev st = (Ok tt, log x st) /\
    carried x = Some (m, d).
Proof.
  intros He. unfold sendMessageReply, emitter_send, bind, gets, modify.
  destruct ev as [handle|]; cbn [event_reply];
    [destruct (ev_reply handle)|]; cbn [fst snd]; rewrite ?He;
    eexists; split; reflexivity.
Qed.

(** X4: the four functions compose.  A request is sent by one process; its
    message reaches the callback of the other with an identifier; the other
    process answers with sendMessageReply and that identifier, which puts
    the answer on the wire under the identifier, through [event.reply] or
    through the emitter.  When the answer arrives, if the request expects a
    reply (it is not one-way), its promise is still unsettled, and the
    sender has made fewer than [2^53] requests by then, the promise is
    resolved with the answer, whatever the sender did in between.  The bound
    is needed: at the limit of the counter two requests can share an
    identifier, and the expiry of one removes the listener of the other. *)
Theorem request_reply_round_trip (l : nat) (e : option nat) (cb : nat)
    (inputs : list input) (l' : nat) (e' : option nat) (cb' : nat)
    (inputs' : list input) (action : string) (data : jsval)
    (timeout : option number) (now : Z) (ev ev' : option event)
    (answer : jsval) (more : list input) (c : closure) :
  let sender := started l e cb inputs in
  let p := length (closures sender) in
  let id := message_id (seed sender) now in
  let sent :=
    run more (snd (sendMessageRequest action data timeout now sender)) in
  let receiver := started l' e' cb' inputs' in
  let received := emit "message-request" ev (message id action data) receiver in
  let replied := sendMessageReply id answer ev (snd received) in
  Z.of_nat (length (closures sent)) < seed_limit ->
  closures sent !! p = Some c -> c_settled c = [] -> c_oneWay c = false ->
  received =
    (Ok tt, log (ECallback cb' (VStr action) data ev (VStr id)) receiver) /\
  (exists x,
     replied = (Ok tt, log x (snd received)) /\
     carried x = Some (id, answer)) /\
  exists c',
    closures (step (Incoming id ev' answer) sent) !! p = Some c' /\
    c_settled c' = [Resolved answer].
Proof.
  intros sender p id sent receiver received replied Hlen Hc Hset Hone.
  assert (Hrec : received = (Ok tt, log (ECallback cb' (VStr action) data ev
                                          (VStr id)) receiver)).
  { unfold received, receiver. rewrite emit_request_started. reflexivity. }
  split; [exact Hrec|]. split.
  - unfold replied. rewrite Hrec. cbn [snd].
    apply (sendMessageReply_carries id answer ev _ (default l' e')).
    apply (started_objects l' e' cb' inputs').
  - assert (Hsent : sent =
              started l e cb
                (inputs ++ Call_sendMessageRequest action data timeout now
                           :: more)).
    { unfold sent, sender, started.
      rewrite app_comm_cons, run_app. reflexivity. }
    assert (Hid : c_id c = id).
    { destruct (sendMessageRequest_closures action data timeout now sender
                  (consistent_started l e cb inputs)) as [_ Hcl].
      destruct (run_extends more
                  (snd (sendMessageRequest action data timeout now sender))
                  p (Closure id action (oneWay_of timeout)
                       (infinite_of timeout)
                       (if oneWay_of timeout || infinite_of timeout
                        then None else Some (next_timer sender)) []))
        as (c1 & Hc1 & Hid1 & _).
      { rewrite Hcl, lookup_app_r by (unfold p; lia).
        unfold p. rewrite Nat.sub_diag. reflexivity. }
      fold sent in Hc1. rewrite Hc in Hc1. injection Hc1 as <-.
      exact Hid1. }
    rewrite <- Hid. revert Hlen Hc. rewrite Hsent. intros Hlen Hc.
    apply reply_resolves_waiting; assumption.
Qed.

Lemma request_reply_round_trip_witness :
  let sender := started 7 None 3 [] in
  let sent :=
    run [Call_sendMessageOneWay "note" VNull 1701]
      (snd (sendMessageRequest "ping" VNull (Some (Finite 1000)) 1700
              sender)) in
  let receiver := started 8 (Some 9%nat) 4 [] in
  let received :=
    emit "message-request" None (message "msg-1-1700" "ping" VNull)
      receiver in
  let replied :=
    sendMessageReply "msg-1-1700" (VStr "pong") None (snd received) in
  received =
    (Ok tt,
     log (ECallback 4 (VStr "ping") VNull None (VStr "msg-1-1700"))
       receiver) /\
  (exists x,
     replied = (Ok tt, log x (snd received)) /\
     carried x = Some ("msg-1-1700", VStr "pong")) /\
  exists c',
    closures (step (Incoming "msg-1-1700" None (VStr "pong")) sent) !! 0%nat
      = Some c' /\
    c_settled c' = [Resolved (VStr "pong")].
Proof.
  apply (request_reply_round_trip 7 None 3 [] 8 (Some 9%nat) 4 []
           "ping" VNull (Some (Finite 1000)) 1700 None None (VStr "pong")
           [Call_sendMessageOneWay "note" VNull 1701]
           {| c_id := "msg-1-1700"; c_action := "ping"; c_oneWay := false;
              c_infinite := false; c_timer := Some 1%nat;
              c_settled := [] |});
    vm_compute; reflexivity.
Defined.

(** ** Timers after a reply *)

(** The handle has been given out and is not armed. *)
Definition disarmed (h : nat) (st : state) : Prop :=
  timers st !! h = None /\ (h < next_timer st)%nat.

(** No timer has been armed and no handle given out. *)
Definition timers_shrink (st st' : state) : Prop :=
  next_timer st' = next_timer st /\
  forall h q, timers st' !! h = Some q -> timers st !! h = Some q.

Lemma timers_shrink_turn s ev v st :
  operational st -> s ∈ listeners st -> timers_shrink st (turn s ev v st).
Proof.
  intros [Hcons _] Hin. destruct (s_handler s) as [cb|p] eqn:Hh.
  - destruct (turn_request_state s cb ev v st Hh) as (_ & _ & Ht & Hn & _).
    unfold timers_shrink. rewrite Ht, Hn. split; auto.
  - destruct (turn_reply_state s p ev v st Hcons Hin Hh)
      as (c & _ & _ & _ & _ & _ & _ & Hn & Htm).
    unfold timers_shrink. rewrite Hn. split; [reflexivity|]. intros h q.
    destruct (c_timer c) as [h0|]; destruct Htm as [Ht _]; rewrite Ht;
      [|auto].
    intros Hq. apply lookup_delete_Some in Hq as [_ Hq]. exact Hq.
Qed.

Lemma timers_shrink_emit ch ev v st :
  operational st -> timers_shrink st (snd (emit ch ev v st)).
Proof.
  apply (event_rule timers_shrink).
  - intros st0. split; auto.
  - intros a b c [Hn1 H1] [Hn2 H2]. split; [congruence|auto].
  - intros st0 s. apply timers_shrink_turn.
Qed.

Lemma sendMessageRequest_next_timer a d t now st :
  consistent st ->
  next_timer (snd (sendMessageRequest a d t now st)) =
  if oneWay_of t || infinite_of t then next_timer st
  else S (next_timer st).
Proof.
  intros Hcons. destruct (cons_objects st Hcons) as (l & e & Hl & He).
  destruct (oneWay_of t) eqn:Hone; [|destruct (infinite_of t) eqn:Hinf].
  - rewrite (sendMessageRequest_oneWay a d t now st l e) by assumption.
    reflexivity.
  - rewrite (sendMessageRequest_infinite a d t now st l e) by assumption.
    reflexivity.
  - rewrite (sendMessageRequest_finite a d t now st l e) by assumption.
    reflexivity.
Qed.

Lemma disarmed_step h i st :
  operational st -> disarmed h st -> disarmed h (step i st).
Proof.
  intros Hop [Hnone Hlt]. pose proof (proj1 Hop) as Hcons.
  assert (Hsend : forall a d t now,
            disarmed h (snd (sendMessageRequest a d t now st))).
  { intros a d t now. unfold disarmed.
    rewrite sendMessageRequest_timers, sendMessageRequest_next_timer
      by assumption.
    destruct (oneWay_of t || infinite_of t); [auto|].
    split; [|lia]. rewrite lookup_insert_ne by lia. exact Hnone. }
  destruct i as [l e cb0|a d now|m d ev|a d t now|h0|ch ev v]; cbn [step].
  - rewrite initMessaging_initialized; [split; assumption|].
    destruct (cons_objects st Hcons) as (l' & e' & _ & He).
    unfold initialized. rewrite He. reflexivity.
  - apply Hsend.
  - assert (timers (snd (sendMessageReply m d ev st)) = timers st /\
            next_timer (snd (sendMessageReply m d ev st)) = next_timer st)
      as [Ht Hn].
    { apply (preserves_sendMessageReply
               (fun s s' => timers s' = timers s /\
                            next_timer s' = next_timer s));
        [auto|intros ? ? ? [? ?] [? ?]; split; congruence|auto]. }
    unfold disarmed. rewrite Ht, Hn. auto.
  - apply Hsend.
  - destruct (timers st !! h0) as [p0|] eqn:Hh;
      [|rewrite fire_idle by assumption; split; assumption].
    destruct (cons_objects st Hcons) as (l & e & Hl & _).
    destruct (cons_timers st Hcons h0 p0 Hh) as (_ & c0 & Hc0 & _).
    rewrite (fire_armed h0 p0 c0 l) by assumption.
    split; [|exact Hlt]. cbn [snd timers].
    apply lookup_delete_None. auto.
  - destruct (timers_shrink_emit ch ev v st Hop) as [Hn Hsub].
    split; [|rewrite Hn; exact Hlt].
    destruct (timers (snd (emit ch ev v st)) !! h) as [q|] eqn:Hq;
      [|reflexivity].
    apply Hsub in Hq. congruence.
Qed.

Lemma disarmed_run h inputs st :
  operational st -> disarmed h st -> disarmed h (run inputs st).
Proof.
  revert st. induction inputs as [|i rest IH]; intros st Hop Hd; [exact Hd|].
  apply IH; [apply operational_step, Hop|apply disarmed_step; assumption].
Qed.

(** X5: a reply is final.  When an event arrives on the channel of a
    request whose function is subscribed, the promise is resolved with the
    reply and stays so whatever follows: a second reply on the same channel
    does not replace the first.  The timer of the request, if it has one, is
    cleared: its handle is never armed again, and the expiry of that timer,
    were it still delivered, changes nothing. *)
Theorem reply_is_final (l : nat) (e : option nat) (cb : nat)
    (inputs : list input) (p : nat) (c : closure) (ev : option event)
    (reply : jsval) (more : list input) :
  closures (started l e cb inputs) !! p = Some c ->
  Subscription (c_id c) true (OnReply p) ∈ listeners (started l e cb inputs) ->
  let after :=
    run more (step (Incoming (c_id c) ev reply) (started l e cb inputs)) in
  (exists c', closures after !! p = Some c' /\
              c_settled c' = [Resolved reply]) /\
  forall h, c_timer c = Some h ->
    timers after !! h = None /\ step (Timer h) after = after.
Proof.
  intros Hc Hsub after.
  pose proof (operational_started l e cb inputs) as Hop.
  pose proof (proj1 Hop) as Hcons.
  destruct (cons_replies _ Hcons _ p Hsub eq_refl) as (c0 & Hc0 & _ & Haw).
  assert (c0 = c) by congruence. subst c0.
  destruct Haw as (Hset & Hone & Haw).
  set (st1 := step (Incoming (c_id c) ev reply) (started l e cb inputs)).
  assert (Hop1 : operational st1) by (apply operational_step, Hop).
  destruct (emit_reply_channel _ (c_id c) ev reply Hop
              (operational_id _ p c Hop Hc)) as [_ Hall].
  destruct (Hall p c Hc) as (c1 & Hc1 & Hs1).
  change (snd (emit (c_id c) ev reply (started l e cb inputs))) with st1
    in Hc1.
  rewrite decide_True, Hset in Hs1 by exact Hsub. cbn in Hs1.
  split.
  - destruct (settled_stable st1 after p c1 (run_extends more st1)
                (proj1 (operational_run more st1 Hop1)) Hc1)
      as (c' & Hc' & _ & Hs').
    { rewrite Hs1. discriminate. }
    exists c'. split; [exact Hc'|]. rewrite Hs'. exact Hs1.
  - intros h Hh. rewrite Hh in Haw.
    destruct (c_infinite c); [discriminate|].
    destruct Haw as (h' & [= <-] & Hth).
    assert (Hd : disarmed h st1).
    { destruct (cons_timers _ Hcons h p Hth) as [Hlt _].
      destruct (timers_shrink_emit (c_id c) ev reply _ Hop) as [Hn Hshr].
      split; [|unfold st1; cbn [step]; rewrite Hn; exact Hlt].
      destruct (timers st1 !! h) as [q|] eqn:Hq; [|reflexivity].
      pose proof (Hshr h q Hq) as Hq'. rewrite Hth in Hq'.
      injection Hq' as <-.
      destruct (cons_timers _ (proj1 Hop1) h p Hq)
        as (_ & c2 & Hc2 & _ & Hs2 & _).
      rewrite Hc1 in Hc2. injection Hc2 as <-.
      rewrite Hs1 in Hs2. discriminate. }
    destruct (disarmed_run h more st1 Hop1 Hd) as [Hnone _].
    split; [exact Hnone|]. cbn [step]. rewrite fire_idle by exact Hnone.
    reflexivity.
Qed.

Lemma reply_is_final_witness :
  let after :=
    run [Incoming "msg-1-1700" None (VStr "late")]
      (step (Incoming "msg-1-1700" None (VStr "pong"))
         (started 7 None 3
            [Call_sendMessageRequest "ping" VNull (Some (Finite 50)) 1700])) in
  (exists c', closures after !! 0%nat = Some c' /\
              c_settled c' = [Resolved (VStr "pong")]) /\
  forall h, Some 1%nat = Some h ->
    timers after !! h = None /\ step (Timer h) after = after.
Proof.
  apply (reply_is_final 7 None 3
           [Call_sendMessageRequest "ping" VNull (Some (Finite 50)) 1700]
           0%nat
           {| c_id := "msg-1-1700"; c_action := "ping"; c_oneWay := false;
              c_infinite := false; c_timer := Some 1%nat;
              c_settled := [] |}
           None (VStr "pong") [Incoming "msg-1-1700" None (VStr "late")]).
  - vm_compute. reflexivity.
  - vm_compute. right. left.
Defined.

(** ** Before initMessaging *)

(** X6: sendMessageRequest before initMessaging.  With no listener and no
    emitter object the call still returns a promise and still uses up a
    sequence number; the promise is already rejected, with the TypeError of
    the method call on [null] that left the executor.  Nothing is sent and
    nothing is subscribed.  With a finite timeout the timer has been set
    before the exception, and it is left armed. *)
Theorem request_before_initMessaging (action : string) (data : jsval)
    (timeout : option number) (now : Z) (st : state) :
  listenerObj st = None -> emitterObj st = None ->
  let r := sendMessageRequest action data timeout now st in
  let p := length (closures st) in
  let timed := negb (oneWay_of timeout || infinite_of timeout) in
  fst r = Ok p /\
  closures (snd r) =
    (closures st ++
     [Closure (message_id (seed st) now) action (oneWay_of timeout)
        (infinite_of timeout)
        (if timed then Some (next_timer st) else None)
        [Thrown TypeError]])%list /\
  seed (snd r) = incr (seed st) /\
  listeners (snd r) = listeners st /\
  timers (snd r) =
    (if timed then <[next_timer st := p]> (timers st) else timers st) /\
  trace (snd r) =
    (trace st ++
     if timed then [ESetTimeout (next_timer st) (delay_of timeout)]
     else [])%list.
Proof.
  intros Hl He. unfold delay_of, oneWay_of, infinite_of in *.
  destruct st; simpl in *; subst.
  unfold sendMessageRequest.
  destruct (strict_eq_zero timeout) eqn:Ho;
    destruct (timeout_truthy timeout && lt_zero timeout) eqn:Hi;
    lazy beta iota zeta delta
      [new_Promise post_increment_seed executor setTimeout assign_timer
       listener_once listener_subscribe emitter_send settle bind gets modify
       ret throw log set_seed set_closures set_listeners set_timers
       seed emitterObj listenerObj closures listeners timers next_timer trace
       s_once s_channel negb andb orb fst snd];
    rewrite ?alter_last, ?app_nil_r; repeat split; try reflexivity.
Qed.

Lemma request_before_initMessaging_witness :
  let r := sendMessageRequest "ping" VNull None 1700 initial_state in
  fst r = Ok 0%nat /\
  closures (snd r) =
    [Closure "msg-1-1700" "ping" false false (Some 1%nat)
       [Thrown TypeError]] /\
  seed (snd r) = 2 /\
  listeners (snd r) = [] /\
  timers (snd r) = <[1%nat := 0%nat]> ∅ /\
  trace (snd r) = [ESetTimeout 1%nat (Some (Finite 2000))].
Proof.
  apply (request_before_initMessaging "ping" VNull None 1700 initial_state);
    reflexivity.
Defined.

(** ** The calls the module makes *)

(** A request with identifier [id] whose closure satisfies [Q]. *)
Definition request_with (st : state) (id : string) (Q : closure -> Prop)
    : Prop :=
  exists p c, closures st !! p = Some c /\ c_id c = id /\ Q c.

(** The promise was rejected by the timer function, and by nothing else. *)
Definition timed_out (c : closure) : Prop :=
  c_settled c = [Rejected (VStr "Timed out")].

(** What a call made by an initialized module looks like, after the
    [listenerObj.on] of initMessaging: [l] is the listener object, [e'] the
    emitter object and [cb] the callback.  The second warning of the source,
    that of a reply to a request that timed out, is not among them. *)
Definition expected (l e' cb : nat) (st : state) (x : effect) : Prop :=
  match x with
  | EOn _ _ => False
  | EOnce t ch => t = l /\ request_with st ch (fun c => c_oneWay c = false)
  | ERemoveAllListeners t ch => t = l /\ request_with st ch timed_out
  | ESend t _ _ => t = e'
  | EWarn (TimeOut id action) =>
      request_with st id (fun c => c_action c = action /\ timed_out c)
  | EWarn (TimedOutReply _ _ _) => False
  | ECallback cb' _ _ _ _ => cb' = cb
  | EEventReply _ _ _ | ESetTimeout _ _ | EClearTimeout _ => True
  end.

(** The calls made during a round. *)
Definition quiet (cb : nat) (x : effect) : Prop :=
  match x with
  | EClearTimeout _ => True
  | ECallback cb' _ _ _ _ => cb' = cb
  | _ => False
  end.

(** The second state has the trace of the first and calls of a round
    after it. *)
Definition round_trace (cb : nat) (st st' : state) : Prop :=
  listening cb st ->
  listening cb st' /\
  exists new, trace st' = (trace st ++ new)%list /\ Forall (quiet cb) new.

Lemma request_with_extends st st' id (Q : closure -> Prop) :
  extends st st' -> consistent st' ->
  (forall c c', evolves c c' ->
     (c_settled c <> [] -> c_settled c' = c_settled c) -> Q c -> Q c') ->
  request_with st id Q -> request_with st' id Q.
Proof.
  intros Hext Hcons HQ (p & c & Hc & Hid & Hq).
  destruct (Hext p c Hc) as (c' & Hc' & Hev).
  exists p, c'. split; [exact Hc'|]. split.
  - destruct Hev as [-> _]. exact Hid.
  - apply (HQ c c' Hev); [|exact Hq]. intros Hne.
    destruct (settled_stable st st' p c Hext Hcons Hc Hne)
      as (c'' & Hc'' & _ & Hs).
    congruence.
Qed.

Lemma expected_extends l e' cb st st' x :
  extends st st' -> consistent st' ->
  expected l e' cb st x -> expected l e' cb st' x.
Proof.
  intros Hext Hcons.
  destruct x as [| | | | | | |[]|]; cbn [expected]; try tauto.
  - intros [-> Hr]. split; [reflexivity|].
    revert Hr. apply request_with_extends; [assumption..|].
    intros c c' (_ & _ & Ho & _) _. congruence.
  - intros [-> Hr]. split; [reflexivity|].
    revert Hr. apply request_with_extends; [assumption..|].
    unfold timed_out. intros c c' _ Hs Hc. rewrite Hs; [exact Hc|].
    rewrite Hc. discriminate.
  - apply request_with_extends; [assumption..|].
    unfold timed_out. intros c c' (_ & Ha & _) Hs [Hact Hc].
    split; [congruence|]. rewrite Hs; [exact Hc|]. rewrite Hc. discriminate.
Qed.

Lemma round_trace_turn cb ev v st s :
  operational st -> s ∈ listeners st -> round_trace cb st (turn s ev v st).
Proof.
  intros Hop Hin Hlis. split; [apply listening_turn; assumption|].
  destruct (s_handler s) as [cb0|p] eqn:Hh.
  - assert (cb0 = cb).
    { pose proof (proj2 Hlis s cb0 Hin Hh) as Hs. rewrite Hs in Hh.
      cbn [request_subscription s_handler] in Hh. congruence. }
    subst cb0.
    destruct (turn_request_state s cb ev v st Hh)
      as (_ & _ & _ & _ & _ & [Ht|(a & d & i & Ht)]).
    + exists []. rewrite app_nil_r. split; [exact Ht|constructor].
    + eexists. split; [exact Ht|]. repeat constructor.
  - destruct (turn_reply_state s p ev v st (proj1 Hop) Hin Hh)
      as (c & _ & _ & _ & _ & _ & _ & _ & Htm).
    destruct (c_timer c) as [h|]; destruct Htm as [_ Ht].
    + eexists. split; [exact Ht|]. repeat constructor.
    + exists []. rewrite app_nil_r. split; [exact Ht|constructor].
Qed.

Lemma round_trace_emit cb ch ev v st :
  operational st -> round_trace cb st (snd (emit ch ev v st)).
Proof.
  apply (event_rule (round_trace cb)).
  - intros st0 Hlis. split; [exact Hlis|]. exists [].
    rewrite app_nil_r. split; [reflexivity|constructor].
  - intros a b c Hab Hbc Hlis.
    destruct (Hab Hlis) as (Hlb & n1 & Ht1 & Hq1).
    destruct (Hbc Hlb) as (Hlc & n2 & Ht2 & Hq2).
    split; [exact Hlc|]. exists (n1 ++ n2)%list.
    rewrite Ht2, Ht1, app_assoc. split; [reflexivity|].
    apply Forall_app. split; assumption.
  - intros st0 s. apply round_trace_turn.
Qed.

Lemma quiet_expected l e' cb st x : quiet cb x -> expected l e' cb st x.
Proof. destruct x; cbn [quiet expected]; tauto. Qed.

Lemma sendMessageReply_trace l e' cb m d ev st :
  emitterObj st = Some e' ->
  exists x, trace (snd (sendMessageReply m d ev st)) = (trace st ++ [x])%list /\
            forall st', expected l e' cb st' x.
Proof.
  intros He. unfold sendMessageReply, emitter_send, bind, gets, modify.
  destruct ev as [handle|]; cbn [event_reply];
    [destruct (ev_reply handle)|]; cbn [fst snd]; rewrite ?He;
    eexists; (split; [reflexivity|]); intros st'; cbn [expected];
    auto.
Qed.

Lemma sendMessageRequest_expected l e' cb a d t now st :
  listenerObj st = Some l -> emitterObj st = Some e' ->
  exists new,
    trace (snd (sendMessageRequest a d t now st)) = (trace st ++ new)%list /\
    Forall (expected l e' cb (snd (sendMessageRequest a d t now st))) new.
Proof.
  intros Hl He.
  destruct (oneWay_of t) eqn:Hone; [|destruct (infinite_of t) eqn:Hinf].
  - rewrite (sendMessageRequest_oneWay a d t now st l e') by assumption.
    cbn [snd trace]. eexists. split; [reflexivity|].
    repeat constructor.
  - rewrite (sendMessageRequest_infinite a d t now st l e') by assumption.
    cbn [snd trace]. eexists. split; [reflexivity|].
    repeat constructor.
    eexists (length (closures st)), _. cbn [closures].
    split; [apply list_lookup_middle; reflexivity|]. split; reflexivity.
  - rewrite (sendMessageRequest_finite a d t now st l e') by assumption.
    cbn [snd trace]. eexists. split; [reflexivity|].
    repeat constructor.
    eexists (length (closures st)), _. cbn [closures].
    split; [apply list_lookup_middle; reflexivity|]. split; reflexivity.
Qed.

Lemma step_trace l e' cb i st :
  operational st -> listening cb st ->
  listenerObj st = Some l -> emitterObj st = Some e' ->
  exists new,
    trace (step i st) = (trace st ++ new)%list /\
    Forall (expected l e' cb (step i st)) new.
Proof.
  intros Hop Hlis Hl He. pose proof (proj1 Hop) as Hcons.
  destruct i as [l0 e0 cb0|a d now|m d ev|a d t now|h|ch ev v]; cbn [step].
  - rewrite initMessaging_initialized
      by (unfold initialized; rewrite He; reflexivity).
    exists []. rewrite app_nil_r. split; [reflexivity|constructor].
  - apply sendMessageRequest_expected; assumption.
  - destruct (sendMessageReply_trace l e' cb m d ev st He) as (x & Ht & Hx).
    exists [x]. split; [exact Ht|]. constructor; [apply Hx|constructor].
  - apply sendMessageRequest_expected; assumption.
  - destruct (timers st !! h) as [p|] eqn:Hh.
    + destruct (cons_timers st Hcons h p Hh)
        as (_ & c & Hc & _ & Hs & _).
      rewrite (fire_armed h p c l) by assumption. cbn [snd trace].
      eexists. split; [reflexivity|].
      assert (Hp : request_with
                (snd (fire h st)) (c_id c)
                (fun c' => c_action c' = c_action c /\ timed_out c')).
      { rewrite (fire_armed h p c l) by assumption. cbn [snd].
        eexists p, _. cbn [closures].
        rewrite !list_lookup_alter_eq, Hc. cbn [fmap option_fmap option_map].
        split; [reflexivity|]. unfold timed_out.
        cbn [with_settlement with_timer c_id c_action c_settled].
        rewrite Hs. auto. }
      rewrite (fire_armed h p c l) in Hp by assumption. cbn [snd] in Hp.
      repeat constructor.
      * destruct Hp as (p' & c' & ? & ? & _ & ?).
        exists p', c'. auto.
      * exact Hp.
    + rewrite fire_idle by assumption.
      exists []. rewrite app_nil_r. split; [reflexivity|constructor].
  - destruct (round_trace_emit cb ch ev v st Hop Hlis) as (_ & new & Ht & Hq).
    exists new. split; [exact Ht|].
    eapply Forall_impl; [exact Hq|]. intros x. apply quiet_expected.
Qed.

(** X7: the calls an initialized module makes.  The first is the one
    [listenerObj.on] of initMessaging, on the channel of requests, and [on]
    is not called again.  After it, in any sequence of calls, expiries and
    events: [once] and [removeAllListeners] are called on the listener
    object, [once] on the identifier of a request that expects a reply and
    [removeAllListeners] on the identifier of a request that timed out, never
    on the channel of requests; [send] is called on the emitter object, which
    is the listener when no emitter was given; only the callback given to
    initMessaging is called; and every [console.warn] is the time-out line of
    a request whose promise was rejected with 'Timed out'.  The other warning
    of the source, for a reply to a request that has timed out, is never
    given: that branch of the reply function does not run. *)
Theorem module_calls (l : nat) (e : option nat) (cb : nat)
    (inputs : list input) :
  exists rest,
    trace (started l e cb inputs) = EOn l "message-request" :: rest /\
    Forall (expected l (default l e) cb (started l e cb inputs)) rest.
Proof.
  induction inputs as [|i inputs IH] using rev_ind.
  - exists []. split; [|constructor]. destruct e; reflexivity.
  - destruct IH as (rest & Ht & Hall).
    replace (started l e cb (inputs ++ [i]))
      with (step i (started l e cb inputs))
      by (unfold started; rewrite app_comm_cons, run_app; reflexivity).
    pose proof (operational_started l e cb inputs) as Hop.
    destruct (started_objects l e cb inputs) as [Hl He].
    destruct (step_trace l (default l e) cb i _ Hop
                (listening_started l e cb inputs) Hl He)
      as (new & Ht' & Hnew).
    exists (rest ++ new)%list. rewrite Ht', Ht. split; [reflexivity|].
    apply Forall_app. split; [|exact Hnew].
    eapply Forall_impl; [exact Hall|]. intros x.
    apply expected_extends;
      [apply step_extends|apply consistent_step, (proj1 Hop)].
Qed.

(** ** The sequence of identifiers *)

(** What [Date.now()] returned to the requests among the inputs, oldest
    first. *)
Definition clock (i : input) : list Z :=
  match i with
  | Call_sendMessageOneWay _ _ now
  | Call_sendMessageRequest _ _ _ now => [now]
  | _ => []
  end.

Definition clocks (inputs : list input) : list Z := flat_map clock inputs.

Lemma generated_clock i st :
  generated i st = message_id (seed st) <$> clock i.
Proof. destruct i; reflexivity. Qed.

Lemma seed_after_clock i n :
  seed_after i (seed_of n) = seed_of (n + length (clock i)).
Proof.
  destruct i; cbn [seed_after clock length];
    rewrite ?Nat.add_0_r, ?Nat.add_1_r, ?incr_seed_of; reflexivity.
Qed.

(** X8: the identifiers since the module was loaded, in full.  Whatever
    the calls, expiries and events, before or after initMessaging, the
    requests made are those of the calls of sendMessageRequest and
    sendMessageOneWay, in order, and request number [p] (from 0) has the
    identifier made of the sequence number [p + 1], or of [2^53] once the
    counter has stopped there, and of the clock value of its call; the
    counter holds the number of the next request.  Nothing but a request
    uses up a sequence number, and a request always does, even one made
    before initMessaging. *)
Theorem identifiers_in_sequence (inputs : list input) :
  identifiers (run inputs initial_state) =
    imap (fun p now => message_id (seed_of p) now) (clocks inputs) /\
  seed (run inputs initial_state) = seed_of (length (clocks inputs)).
Proof.
  induction inputs as [|i inputs [IHids IHseed]] using rev_ind.
  - split; reflexivity.
  - rewrite run_app. cbn [run fold_left].
    destruct (step_identifiers i (run inputs initial_state)) as [Hs Hi].
    unfold clocks in *. rewrite flat_map_app. cbn [flat_map].
    rewrite app_nil_r, imap_app, length_app, Hs, Hi, IHids, IHseed.
    split; [|apply seed_after_clock]. f_equal.
    rewrite generated_clock, IHseed.
    destruct i; cbn [clock imap fmap list_fmap]; try reflexivity;
      rewrite Nat.add_0_r; reflexivity.
Qed.

(** ** Requests that are over *)

Lemma emit_unobserved ch ev v st :
  (forall s, s ∈ listeners st -> s_channel s <> ch) ->
  emit ch ev v st = (Ok tt, st).
Proof.
  intros Hnone. unfold emit, bind, gets. cbn [fst snd].
  destruct (filter (fun s => s_channel s = ch) (listeners st))
    as [|s rest] eqn:Hf; [reflexivity|].
  assert (Hin : s ∈ filter (fun s => s_channel s = ch) (listeners st))
    by (rewrite Hf; left).
  apply list_elem_of_filter in Hin as [Hch Hin].
  destruct (Hnone s Hin Hch).
Qed.

(** The functions subscribed on the channel of a request are those of the
    requests with that identifier. *)
Lemma channel_subscribers st p c s :
  operational st -> Z.of_nat (length (closures st)) < seed_limit ->
  closures st !! p = Some c ->
  s ∈ listeners st -> s_channel s = c_id c ->
  s = Subscription (c_id c) true (OnReply p) /\ awaiting st p c.
Proof.
  intros Hop Hlen Hc Hin Hch. pose proof (proj1 Hop) as Hcons.
  destruct (s_handler s) as [cb0|q] eqn:Hh.
  - pose proof (cons_requests st Hcons s cb0 Hin Hh) as Hreq.
    destruct (operational_id st p c Hop Hc). congruence.
  - destruct (cons_replies st Hcons s q Hin Hh) as (cq & Hcq & Hs & Haw).
    assert (q = p).
    { apply (identifiers_unique st q p cq c (proj2 Hop) Hlen Hcq Hc).
      rewrite Hs in Hch. exact Hch. }
    subst q. assert (cq = c) by congruence. subst cq. auto.
Qed.

(** X9: a request that is over holds nothing.  Once the promise of a
    request is settled, or when the request is one-way, the function of the
    request is not subscribed and no timer is armed for it, in every state
    the initialized module reaches.  While the counter is below its limit,
    no function at all is subscribed on the channel of its identifier: an
    event on that channel then returns normally and changes nothing. *)
Theorem finished_request_holds_nothing (l : nat) (e : option nat) (cb : nat)
    (inputs : list input) (p : nat) (c : closure) (ev : option event)
    (v : jsval) :
  let st := started l e cb inputs in
  closures st !! p = Some c ->
  c_settled c <> [] \/ c_oneWay c = true ->
  (forall s, s ∈ listeners st -> s_handler s <> OnReply p) /\
  (forall h, timers st !! h <> Some p) /\
  (Z.of_nat (length (closures st)) < seed_limit ->
   emit (c_id c) ev v st = (Ok tt, st)).
Proof.
  intros st Hc Hover.
  pose proof (operational_started l e cb inputs) as Hop.
  fold st in Hop. pose proof (proj1 Hop) as Hcons.
  assert (Hnot : ~ awaiting st p c).
  { intros (Hs & Ho & _). destruct Hover; congruence. }
  split; [|split].
  - intros s Hin Hh.
    destruct (cons_replies st Hcons s p Hin Hh) as (c' & Hc' & _ & Haw).
    assert (c' = c) by congruence. subst c'. exact (Hnot Haw).
  - intros h Hh.
    destruct (cons_timers st Hcons h p Hh) as (_ & c' & Hc' & _ & Hs & Ho & _).
    assert (c' = c) by congruence. subst c'. destruct Hover; congruence.
  - intros Hlen. apply emit_unobserved. intros s Hin Hch.
    destruct (channel_subscribers st p c s Hop Hlen Hc Hin Hch) as [_ Haw].
    exact (Hnot Haw).
Qed.

Lemma finished_request_holds_nothing_witness :
  let st :=
    started 7 None 3
      [Call_sendMessageRequest "ping" VNull (Some (Finite 50)) 1700;
       Incoming "msg-1-1700" None (VStr "pong")] in
  (forall s, s ∈ listeners st -> s_handler s <> OnReply 0%nat) /\
  (forall h, timers st !! h <> Some 0%nat) /\
  (Z.of_nat (length (closures st)) < seed_limit ->
   emit "msg-1-1700" None (VStr "again") st = (Ok tt, st)).
Proof.
  apply (finished_request_holds_nothing 7 None 3
           [Call_sendMessageRequest "ping" VNull (Some (Finite 50)) 1700;
            Incoming "msg-1-1700" None (VStr "pong")]
           0%nat
           {| c_id := "msg-1-1700"; c_action := "ping"; c_oneWay := false;
              c_infinite := false; c_timer := Some 1%nat;
              c_settled := [Resolved (VStr "pong")] |}
           None (VStr "again")).
  - vm_compute. reflexivity.
  - left. discriminate.
Defined.

(** ** Requests do not disturb each other *)

(** Between the two states request [q] is either untouched, with its
    function still subscribed and its timer still armed if they were, or
    its promise has been settled further. *)
Definition undisturbed (q : nat) (st st' : state) : Prop :=
  forall cq, closures st !! q = Some cq ->
    (closures st' !! q = Some cq /\
     (forall s, s ∈ listeners st -> s_handler s = OnReply q ->
        s ∈ listeners st') /\
     (forall h, timers st !! h = Some q -> timers st' !! h = Some q)) \/
    (exists cq', closures st' !! q = Some cq' /\
       (length (c_settled cq) < length (c_settled cq'))%nat).

Lemma undisturbed_refl q st : undisturbed q st st.
Proof. intros cq Hq. left. auto. Qed.

Lemma undisturbed_trans q a b c :
  undisturbed q a b -> undisturbed q b c -> undisturbed q a c.
Proof.
  intros Hab Hbc cq Hq.
  destruct (Hab cq Hq) as [(Hb & Hl & Ht)|(cb & Hb & Hlen)].
  - destruct (Hbc cq Hb) as [(Hc & Hl' & Ht')|(cc & Hc & Hlen)].
    + left. split; [exact Hc|]. split; auto.
    + right. exists cc. auto.
  - right. destruct (Hbc cb Hb) as [(Hc & _)|(cc & Hc & Hlen')].
    + exists cb. auto.
    + exists cc. split; [exact Hc|lia].
Qed.

Lemma undisturbed_turn q s ev v st :
  operational st -> s ∈ listeners st -> undisturbed q st (turn s ev v st).
Proof.
  intros Hop Hin cq Hq. pose proof (proj1 Hop) as Hcons.
  destruct (s_handler s) as [cb0|p] eqn:Hh.
  - destruct (turn_request_state s cb0 ev v st Hh)
      as (Hcl & Hli & Htm & _).
    left. rewrite Hcl, Hli, Htm. split; [exact Hq|]. split; [|auto].
    intros s' Hs' Hh'. unfold unsubscribed.
    destruct (s_once s); [|exact Hs']. cbn [listeners set_listeners].
    apply list_elem_of_filter. split; [congruence|exact Hs'].
  - destruct (turn_reply_state s p ev v st Hcons Hin Hh)
      as (c & Hc & Hs & Haw & Hcl & Hli & _ & _ & Htm).
    destruct (decide (q = p)) as [->|Hne].
    + right. assert (cq = c) by congruence. subst cq.
      eexists. rewrite Hcl, list_lookup_alter_eq, Hc. split; [reflexivity|].
      cbn [with_settlement c_settled]. rewrite length_app. cbn [length]. lia.
    + left. rewrite Hcl, Hli, list_lookup_alter_ne by auto.
      split; [exact Hq|]. split.
      * intros s' Hs' Hh'. apply list_elem_of_filter.
        split; [congruence|exact Hs'].
      * intros h Hhq. destruct Haw as (_ & _ & Haw).
        destruct (c_timer c) as [h0|]; destruct Htm as [Htm _]; rewrite Htm;
          [|exact Hhq].
        destruct (c_infinite c); [discriminate|].
        destruct Haw as (h1 & [= <-] & Hh0).
        rewrite lookup_delete_ne by congruence. exact Hhq.
Qed.

Lemma undisturbed_emit q ch ev v st :
  operational st -> undisturbed q st (snd (emit ch ev v st)).
Proof.
  apply (event_rule (undisturbed q)).
  - apply undisturbed_refl.
  - apply undisturbed_trans.
  - intros st0 s. apply undisturbed_turn.
Qed.

(** X10: requests do not disturb each other.  While the counter is below
    its limit, the two events that end a request, a reply on the channel of
    its identifier and the expiry of its timer, leave every other request as
    it was: its closure is unchanged, its function is still subscribed if it
    was, and its timer is still armed if it was. *)
Theorem other_requests_undisturbed (l : nat) (e : option nat) (cb : nat)
    (inputs : list input) (i : input) (p q : nat) (c : closure) :
  let st := started l e cb inputs in
  Z.of_nat (length (closures st)) < seed_limit ->
  closures st !! p = Some c ->
  (exists ev v, i = Incoming (c_id c) ev v) \/
  (exists h, i = Timer h /\ timers st !! h = Some p) ->
  q <> p ->
  closures (step i st) !! q = closures st !! q /\
  (forall s, s ∈ listeners st -> s_handler s = OnReply q ->
     s ∈ listeners (step i st)) /\
  (forall h, timers st !! h = Some q -> timers (step i st) !! h = Some q).
Proof.
  intros st Hlen Hc Hi Hne.
  pose proof (operational_started l e cb inputs) as Hop.
  fold st in Hop. pose proof (proj1 Hop) as Hcons.
  destruct Hi as [(ev & v & ->)|(h & -> & Hh)]; cbn [step].
  - destruct (closures st !! q) as [cq|] eqn:Hq.
    + destruct (undisturbed_emit q (c_id c) ev v st Hop cq Hq)
        as [Hsame|(cq' & Hq' & Hgrown)]; [exact Hsame|].
      destruct (emit_reply_channel st (c_id c) ev v Hop
                  (operational_id st p c Hop Hc)) as [_ Hall].
      destruct (Hall q cq Hq) as (cq'' & Hq'' & Hs).
      assert (cq'' = cq') by congruence. subst cq''.
      rewrite decide_False in Hs; [rewrite Hs in Hgrown; lia|].
      intros Hin.
      destruct (channel_subscribers st p c _ Hop Hlen Hc Hin eq_refl)
        as [[= Heq] _].
      exact (Hne Heq).
    + split; [|split].
      * destruct (closures (snd (emit (c_id c) ev v st)) !! q) as [cq'|] eqn:Hq';
          [|reflexivity].
        apply lookup_lt_Some in Hq'. apply lookup_ge_None in Hq.
        assert (Hids : same_identifiers st (snd (emit (c_id c) ev v st))).
        { apply (event_rule same_identifiers);
            [exact same_identifiers_refl|exact same_identifiers_trans|
             |exact Hop].
          intros st0 s _ _. apply turn_same_identifiers. }
        destruct Hids as [_ Hids]. unfold identifiers in Hids.
        apply (f_equal length) in Hids.
        rewrite !length_fmap in Hids. lia.
      * intros s Hin Hh.
        destruct (cons_replies st Hcons s q Hin Hh) as (cq & Hcq & _).
        congruence.
      * intros h Hh.
        destruct (cons_timers st Hcons h q Hh) as (_ & cq & Hcq & _).
        congruence.
  - destruct (cons_objects st Hcons) as (l' & e' & Hl & _).
    rewrite (fire_armed h p c l') by assumption. cbn [snd closures listeners timers].
    rewrite !list_lookup_alter_ne by auto.
    split; [reflexivity|]. split.
    + intros s Hin Hhq. apply list_elem_of_filter. split; [|exact Hin].
      intros Hch.
      destruct (channel_subscribers st p c s Hop Hlen Hc Hin Hch) as [Hs _].
      rewrite Hs in Hhq. cbn [s_handler] in Hhq. congruence.
    + intros h' Hh'. rewrite lookup_delete_ne by congruence. exact Hh'.
Qed.

Lemma other_requests_undisturbed_witness :
  let st :=
    started 7 None 3
      [Call_sendMessageRequest "ping" VNull (Some (Finite 50)) 1700;
       Call_sendMessageRequest "pong" VNull (Some (Finite 50)) 1700] in
  let i := Timer 1%nat in
  closures (step i st) !! 1%nat = closures st !! 1%nat /\
  (forall s, s ∈ listeners st -> s_handler s = OnReply 1%nat ->
     s ∈ listeners (step i st)) /\
  (forall h, timers st !! h = Some 1%nat ->
     timers (step i st) !! h = Some 1%nat).
Proof.
  apply (other_requests_undisturbed 7 None 3
           [Call_sendMessageRequest "ping" VNull (Some (Finite 50)) 1700;
            Call_sendMessageRequest "pong" VNull (Some (Finite 50)) 1700]
           (Timer 1%nat) 0%nat 1%nat
           {| c_id := "msg-1-1700"; c_action := "ping"; c_oneWay := false;
              c_infinite := false; c_timer := Some 1%nat;
              c_settled := [] |}).
  - vm_compute. reflexivity.
  - vm_compute. reflexivity.
  - right. exists 1%nat. split; [reflexivity|]. vm_compute. reflexivity.
  - lia.
Defined.
